(** * The terminal snake game of [snake.go]: model and verified properties

    The Go program keeps the whole game in package-level variables
    ([snake], [food], [direction], [gameOver], [score]) that are read and
    written by [initializeGame], [handleInput], [move], [checkCollisions],
    [placeFood] and [draw], all of them called from the single goroutine
    running [gameLoop].  The embedding below makes that store an explicit
    record which every function takes and returns.

    Two effects of the program are not pure state updates and are made
    explicit too:
    - [placeFood] draws from [math/rand] and retries in an unbounded [for]
      loop.  The generator is an arbitrary stream [raw : nat -> Z] of
      integers, [rand.Intn n] reduces the next one into [0, n), and the loop
      is given a fuel: running out of it is the outcome [Diverge].
    - indexing [snake[0]] on an empty slice panics: outcome [Panic]. *)

From Stdlib Require Import ZArith List String Ascii DecimalString Bool Lia FinFun.
From stdpp Require gmap.
Import ListNotations.

Local Open Scope string_scope.
Local Open Scope Z_scope.

(** ** Go's [int] *)

Module GoInt.

(** [int] is 64 bits wide on the platforms termbox-go builds for;
    arithmetic wraps around in two's complement. *)
Definition int_min : Z := - 2 ^ 63.
Definition int_max : Z := 2 ^ 63 - 1.

Definition wrap (z : Z) : Z := (z + 2 ^ 63) mod 2 ^ 64 - 2 ^ 63.

Definition in_range (z : Z) : Prop := int_min <= z <= int_max.

End GoInt.

Import GoInt.

(** ** Outcomes of a call *)

Inductive result (A : Type) : Type :=
| Ok (a : A)      (* the call returns *)
| Panic           (* run-time panic (index out of range) *)
| Diverge.        (* the fuel of a retry loop ran out *)

Arguments Ok {A} a.
Arguments Panic {A}.
Arguments Diverge {A}.

Definition bind {A B : Type} (r : result A) (k : A -> result B) : result B :=
  match r with
  | Ok a => k a
  | Panic => Panic
  | Diverge => Diverge
  end.

Notation "x <- c ;; k" := (bind c (fun x => k))
  (at level 61, c at next level, right associativity).

(** ** Constants and data *)

Definition width : Z := 25.
Definition height : Z := 20.

Record Position : Type := mkPosition { X : Z; Y : Z }.

(** What [draw] reads when it paints a frame: [drawSnake], [drawFood],
    [drawScore], and [drawGameOver] when [gameOver] is set. *)
Record Frame : Type := mkFrame {
  f_snake : list Position;
  f_food : Position;
  f_score : Z;
  f_gameOver : bool
}.

(** The package-level variables, together with the number of [rand.Intn]
    calls made so far and the frames painted so far (oldest first). *)
Record State : Type := mkState {
  snake : list Position;
  food : Position;
  direction : string;
  gameOver : bool;
  score : Z;
  randCalls : nat;
  frames : list Frame
}.

Definition set_snake (v : list Position) (s : State) : State :=
  mkState v (food s) (direction s) (gameOver s) (score s) (randCalls s) (frames s).
Definition set_food (v : Position) (s : State) : State :=
  mkState (snake s) v (direction s) (gameOver s) (score s) (randCalls s) (frames s).
Definition set_direction (v : string) (s : State) : State :=
  mkState (snake s) (food s) v (gameOver s) (score s) (randCalls s) (frames s).
Definition set_gameOver (v : bool) (s : State) : State :=
  mkState (snake s) (food s) (direction s) v (score s) (randCalls s) (frames s).
Definition set_score (v : Z) (s : State) : State :=
  mkState (snake s) (food s) (direction s) (gameOver s) v (randCalls s) (frames s).
Definition set_randCalls (v : nat) (s : State) : State :=
  mkState (snake s) (food s) (direction s) (gameOver s) (score s) v (frames s).
Definition set_frames (v : list Frame) (s : State) : State :=
  mkState (snake s) (food s) (direction s) (gameOver s) (score s) (randCalls s) v.

(** [a.X == b.X && a.Y == b.Y], the comparison the source spells out in
    [move], [checkCollisions] and [placeFood]. *)
Definition samePos (a b : Position) : bool :=
  (X a =? X b) && (Y a =? Y b).

(** The wall test of [checkCollisions]. *)
Definition outside (p : Position) : bool :=
  (X p <? 0) || (X p >=? width) || (Y p <? 0) || (Y p >=? height).

(** The variables before [initializeGame] has run: Go's zero values. *)
Definition boot : State :=
  mkState [] (mkPosition 0 0) "" false 0 0%nat [].

(** ** Direction gate: [handleInput] *)

Definition handleInput (key : string) (s : State) : State :=
  if (key =? "UP")%string then
    if negb (direction s =? "DOWN")%string then set_direction key s else s
  else if (key =? "DOWN")%string then
    if negb (direction s =? "UP")%string then set_direction key s else s
  else if (key =? "LEFT")%string then
    if negb (direction s =? "RIGHT")%string then set_direction key s else s
  else if (key =? "RIGHT")%string then
    if negb (direction s =? "LEFT")%string then set_direction key s else s
  else s.

(** ** Collision check: [checkCollisions] *)

(** The body of the [range snake[1:]] loop, for one segment. *)
Definition hitSegment (head : Position) (s : State) (segment : Position) : State :=
  if samePos head segment then set_gameOver true s else s.

Definition checkCollisions (s : State) : result State :=
  match snake s with
  | [] => Panic
  | head :: rest =>
      let s1 := if outside head then set_gameOver true s else s in
      Ok (fold_left (hitSegment head) rest s1)
  end.

(** ** Rendering: [draw] *)

Definition snapshot (s : State) : Frame :=
  mkFrame (snake s) (food s) (score s) (gameOver s).

Definition draw (s : State) : State :=
  set_frames (frames s ++ [snapshot s]) s.

(** The switch on [direction] in [move]; any other string leaves the copy
    of the head as it is. *)
Definition advanceHead (dir : string) (head : Position) : Position :=
  if (dir =? "UP")%string then mkPosition (X head) (wrap (Y head - 1))
  else if (dir =? "DOWN")%string then mkPosition (X head) (wrap (Y head + 1))
  else if (dir =? "LEFT")%string then mkPosition (wrap (X head - 1)) (Y head)
  else if (dir =? "RIGHT")%string then mkPosition (wrap (X head + 1)) (Y head)
  else head.

(** The inner loop of [placeFood]: [validPosition] after scanning the
    snake, stopping at the first segment the food sits on. *)
Fixpoint validPosition (fd : Position) (segments : list Position) : bool :=
  match segments with
  | [] => true
  | segment :: rest =>
      if samePos fd segment then false else validPosition fd rest
  end.

(** Timer ticks, decoded arrow keys and the closing of [quitCh], in the
    order [select] picked them. *)
Inductive Event : Type :=
| Tick
| Key (key : string)
| Quit.

Section Game.

(** The stream behind [math/rand]. *)
Variable raw : nat -> Z.

(** [rand.Intn n] for a positive [n]. *)
Definition Intn (n : Z) (s : State) : Z * State :=
  (raw (randCalls s) mod n, set_randCalls (S (randCalls s)) s).

(** ** Consumable placement: [placeFood] *)

Fixpoint placeFood (fuel : nat) (s : State) : result State :=
  match fuel with
  | O => Diverge
  | S fuel' =>
      let (x, s1) := Intn width s in
      let (y, s2) := Intn height s1 in
      let s3 := set_food (mkPosition x y) s2 in
      if validPosition (food s3) (snake s3) then Ok s3
      else placeFood fuel' s3
  end.

(** ** Movement: [move] *)

Definition move (fuel : nat) (s : State) : result State :=
  match snake s with
  | [] => Panic
  | head :: _ =>
      let newHead := advanceHead (direction s) head in
      let s1 := set_snake (newHead :: snake s) s in
      if samePos newHead (food s1) then
        placeFood fuel (set_score (wrap (score s1 + 10)) s1)
      else
        Ok (set_snake (firstn (List.length (snake s1) - 1)%nat (snake s1)) s1)
  end.

(** ** [initializeGame] *)

Definition initializeGame (fuel : nat) (s : State) : result State :=
  let s1 := set_snake [mkPosition (width / 2 - 2) (height / 2)] s in
  let s2 := set_direction "RIGHT" s1 in
  let s3 := set_gameOver false s2 in
  let s4 := set_score 0 s3 in
  placeFood fuel s4.

(** ** Scheduler: [gameLoop] *)

(** The [ticker.C] case. *)
Definition onTick (fuel : nat) (s : State) : result State :=
  if negb (gameOver s) then
    s1 <- move fuel s ;;
    s2 <- checkCollisions s1 ;;
    Ok (draw s2)
  else Ok s.

(** One iteration of the [for]/[select] loop; on [quitCh] the loop
    returns and leaves the variables as they are. *)
Definition cycle (fuel : nat) (ev : Event) (s : State) : result State :=
  match ev with
  | Tick => onTick fuel s
  | Key key => Ok (handleInput key s)
  | Quit => Ok s
  end.

(** [gameLoop] over the events it selects; the loop returns at the first
    [Quit], and a list that ends without one gives the state in which the
    loop waits for its next event. *)
Fixpoint gameLoop (fuel : nat) (evs : list Event) (s : State) : result State :=
  match evs with
  | [] => Ok s
  | Quit :: _ => Ok s
  | ev :: evs' => s' <- cycle fuel ev s ;; gameLoop fuel evs' s'
  end.

(** What [main] does once the welcome screen is gone: [initializeGame],
    then [gameLoop]. *)
Definition runGame (fuel : nat) (evs : list Event) : result State :=
  s0 <- initializeGame fuel boot ;; gameLoop fuel evs s0.

(** States in which the loop can be waiting between two events, after
    [main] has called [initializeGame] on the fresh variables. *)
Inductive reachable : State -> Prop :=
| reach_init (fuel : nat) (s : State) :
    initializeGame fuel boot = Ok s -> reachable s
| reach_cycle (fuel : nat) (ev : Event) (s s' : State) :
    reachable s -> cycle fuel ev s = Ok s' -> reachable s'.

End Game.

(** ** Auxiliary notions used in the statements *)

(** The spatial model's containment test, as a proposition. *)
Definition inBounds (p : Position) : Prop :=
  0 <= X p < width /\ 0 <= Y p < height.

(** The position [move] computes for the new head: the first segment moved
    one cell along [direction]. *)
Definition newHeadOf (s : State) : Position :=
  advanceHead (direction s) (hd (mkPosition 0 0) (snake s)).

(** The position [placeFood] builds from the draws number [n] and [n + 1]. *)
Definition sampleAt (raw : nat -> Z) (n : nat) : Position :=
  mkPosition (raw n mod width) (raw (S n) mod height).

(** The four ways of stepping off the board by one cell. *)
Definition onEdge (p : Position) : Prop :=
  X p = -1 \/ X p = width \/ Y p = -1 \/ Y p = height.

(** The state [placeFood] returns after [k] rejected positions. *)
Definition placedAfter (raw : nat -> Z) (k : nat) (s : State) : State :=
  set_food (sampleAt raw (randCalls s + 2 * k))
           (set_randCalls (randCalls s + 2 * k + 2) s).

(** What [checkCollisions] tests on a body: the head is outside the walls
    or equal to one of the other segments. *)
Definition collides (body : list Position) : bool :=
  match body with
  | [] => false
  | head :: rest => outside head || existsb (samePos head) rest
  end.

(** [checkCollisions] as a state update. *)
Definition flagCollision (s : State) : State :=
  if collides (snake s) then set_gameOver true s else s.

(** The state [move] leaves when the new head is on the food, before
    [placeFood] runs, and when it is not. *)
Definition grown (s : State) : State :=
  set_score (wrap (score s + 10)) (set_snake (newHeadOf s :: snake s) s).

Definition slid (s : State) : State :=
  set_snake (newHeadOf s :: removelast (snake s)) s.

(** The number of cells of the board. *)
Definition cellCount : nat := Z.to_nat (width * height).

(** Every cell of the board, column by column. *)
Definition cellOf (n : nat) : Position :=
  mkPosition (Z.of_nat n / height) (Z.of_nat n mod height).

Definition allCells : list Position :=
  map cellOf (seq 0 cellCount).

(** What holds of the variables whenever [gameLoop] waits for an event. *)
Record Inv (s : State) : Prop := mkInv {
  inv_body : snake s <> [];
  inv_score : score s = 10 * (Z.of_nat (List.length (snake s)) - 1);
  inv_length : (List.length (snake s) <= S cellCount)%nat;
  inv_food : ~ In (food s) (snake s);
  inv_food_in : inBounds (food s);
  inv_active : gameOver s = false -> NoDup (snake s) /\ Forall inBounds (snake s)
}.

(** The four directions the input goroutine sends, and their names. *)
Inductive Dir : Type := Up | Down | Left | Right.

Definition dirName (d : Dir) : string :=
  match d with
  | Up => "UP"
  | Down => "DOWN"
  | Left => "LEFT"
  | Right => "RIGHT"
  end.

Definition opposite (d : Dir) : Dir :=
  match d with
  | Up => Down
  | Down => Up
  | Left => Right
  | Right => Left
  end.

(** ** Further notions: headings, shape of the body, painted frames *)

(** The strings [readInput] sends and [move] switches on. *)
Definition validDirection (d : string) : Prop :=
  d = "UP" \/ d = "DOWN" \/ d = "LEFT" \/ d = "RIGHT".

(** Two cells next to each other, horizontally or vertically. *)
Definition adjacent (a b : Position) : Prop :=
  Z.abs (X a - X b) + Z.abs (Y a - Y b) = 1.

(** Every segment lies next to the one that follows it. *)
Fixpoint chained (body : list Position) : Prop :=
  match body with
  | a :: rest =>
      match rest with
      | b :: _ => adjacent a b /\ chained rest
      | [] => True
      end
  | [] => True
  end.

(** The board and the ring of cells around it, where [drawBorder] paints. *)
Definition nearBoard (p : Position) : Prop :=
  -1 <= X p <= width /\ -1 <= Y p <= height.

(** What holds of the heading, the shape of the body and the painted
    frames whenever [gameLoop] waits for an event. *)
Record Shape (s : State) : Prop := mkShape {
  shape_dir : validDirection (direction s);
  shape_chain : chained (snake s);
  shape_tail : Forall inBounds (tl (snake s));
  shape_head : Forall nearBoard (snake s);
  shape_length : (List.length (snake s) < cellCount)%nat;
  shape_current : frames s = [] \/ exists older, frames s = (older ++ [snapshot s])%list;
  shape_overlay : Forall (fun f => f_gameOver f = false) (removelast (frames s));
  shape_over : gameOver s = true -> frames s <> []
}.

(** ** The terminal: termbox events, cells and colours *)

(** The constants of termbox-go the program names.  Their values belong to
    the library; nothing below depends on them. *)
Record Termbox : Type := mkTermbox {
  EventKey : Z;
  KeyArrowUp : Z;
  KeyArrowDown : Z;
  KeyArrowLeft : Z;
  KeyArrowRight : Z;
  KeyEsc : Z;
  ColorDefault : Z;
  ColorRed : Z;
  ColorGreen : Z;
  ColorYellow : Z;
  ColorBlue : Z;
  ColorCyan : Z;
  ColorWhite : Z;
  AttrBold : Z
}.

(** The fields of [termbox.Event] that [readInput] looks at. *)
Record TermEvent : Type := mkTermEvent { ev_Type : Z; ev_Key : Z; ev_Ch : Z }.

(** One call [termbox.SetCell(x, y, ch, fg, bg)]. *)
Record Cell : Type := mkCell { c_x : Z; c_y : Z; c_ch : Z; c_fg : Z; c_bg : Z }.

(** The rune constants: U+25C6, U+25A3 and U+25A0. *)
Definition foodChar : Z := 9670.
Definition snakeChar : Z := 9635.
Definition borderChar : Z := 9632.

(** The colour scheme. *)
Definition ColorSnake (tb : Termbox) : Z := ColorGreen tb.
Definition ColorFood (tb : Termbox) : Z := ColorRed tb.
Definition ColorBorder (tb : Termbox) : Z := ColorCyan tb.
Definition ColorScore (tb : Termbox) : Z := Z.lor (ColorWhite tb) (AttrBold tb).
Definition ColorGameOver (tb : Termbox) : Z := Z.lor (ColorRed tb) (AttrBold tb).
Definition ColorText (tb : Termbox) : Z := ColorYellow tb.

(** *** Go strings: bytes, [len], [range], [fmt.Sprintf] *)

(** A Go string is a sequence of bytes, and so is a [string] here; the
    literals below hold the UTF-8 bytes of the source's literals. *)
Definition byteOf (a : ascii) : Z := Z.of_N (N_of_ascii a).

Definition len (s : string) : Z := Z.of_nat (String.length s).

Definition RuneError : Z := 65533.

(** A continuation byte within [lo, hi], stripped of its two marker bits. *)
Definition contByte (a : ascii) (lo hi : Z) : option Z :=
  let b := byteOf a in
  if (lo <=? b) && (b <=? hi) then Some (Z.land b 63) else None.

(** [utf8.DecodeRuneInString]: the first rune of a string and the number
    of bytes it takes; a malformed sequence gives [RuneError] and width 1. *)
Definition decodeRune (s : string) : Z * nat :=
  match s with
  | EmptyString => (RuneError, 0%nat)
  | String a0 r0 =>
      let b0 := byteOf a0 in
      if b0 <? 128 then (b0, 1%nat)
      else if (194 <=? b0) && (b0 <=? 223) then
        match r0 with
        | String a1 _ =>
            match contByte a1 128 191 with
            | Some c1 => (Z.lor (Z.shiftl (Z.land b0 31) 6) c1, 2%nat)
            | None => (RuneError, 1%nat)
            end
        | EmptyString => (RuneError, 1%nat)
        end
      else if (224 <=? b0) && (b0 <=? 239) then
        let lo := if b0 =? 224 then 160 else 128 in
        let hi := if b0 =? 237 then 159 else 191 in
        match r0 with
        | String a1 (String a2 _) =>
            match contByte a1 lo hi, contByte a2 128 191 with
            | Some c1, Some c2 =>
                (Z.lor (Z.shiftl (Z.lor (Z.shiftl (Z.land b0 15) 6) c1) 6) c2, 3%nat)
            | _, _ => (RuneError, 1%nat)
            end
        | _ => (RuneError, 1%nat)
        end
      else if (240 <=? b0) && (b0 <=? 244) then
        let lo := if b0 =? 240 then 144 else 128 in
        let hi := if b0 =? 244 then 143 else 191 in
        match r0 with
        | String a1 (String a2 (String a3 _)) =>
            match contByte a1 lo hi, contByte a2 128 191, contByte a3 128 191 with
            | Some c1, Some c2, Some c3 =>
                (Z.lor (Z.shiftl (Z.lor (Z.shiftl
                   (Z.lor (Z.shiftl (Z.land b0 7) 6) c1) 6) c2) 6) c3, 4%nat)
            | _, _, _ => (RuneError, 1%nat)
            end
        | _ => (RuneError, 1%nat)
        end
      else (RuneError, 1%nat)
  end.

Fixpoint dropBytes (n : nat) (s : string) : string :=
  match n, s with
  | S n', String _ rest => dropBytes n' rest
  | _, _ => s
  end.

(** [for i, ch := range s]: the byte offset and the rune of each rune of
    [s], from byte offset [i] on. *)
Fixpoint rangeFrom (fuel : nat) (i : Z) (s : string) : list (Z * Z) :=
  match fuel with
  | O => []
  | S fuel' =>
      match s with
      | EmptyString => []
      | String _ _ =>
          let (r, w) := decodeRune s in
          (i, r) :: rangeFrom fuel' (i + Z.of_nat w) (dropBytes w s)
      end
  end.

Definition rangeString (s : string) : list (Z * Z) :=
  rangeFrom (String.length s) 0 s.

(** [%d] of an [int]. *)
Definition itoa (z : Z) : string := NilZero.string_of_int (Z.to_int z).

Fixpoint spaces (n : nat) : string :=
  match n with
  | O => EmptyString
  | S n' => String " " (spaces n')
  end.

(** [%3d] of an [int]: padded with spaces on the left to three bytes. *)
Definition pad3 (digits : string) : string :=
  (spaces (3 - String.length digits) ++ digits)%string.

(** [fmt.Sprintf(format, v)] for the formats of this program: one integer
    argument, and the one verb of the format is [%d] or [%3d]. *)
Fixpoint Sprintf (format : string) (v : Z) : string :=
  match format with
  | String "%" (String "d" rest) => (itoa v ++ rest)%string
  | String "%" (String "3" (String "d" rest)) => (pad3 (itoa v) ++ rest)%string
  | String c rest => String c (Sprintf rest v)
  | EmptyString => EmptyString
  end.

(** *** The painters *)

(** The values of [x] in [for x := 0; x < n; x++]. *)
Definition upto (n : Z) : list Z := map Z.of_nat (seq 0 (Z.to_nat n)).

Definition drawBorder (tb : Termbox) : list Cell :=
  (flat_map (fun x =>
     [mkCell x 0 borderChar (ColorBorder tb) (ColorDefault tb);
      mkCell x (height + 1) borderChar (ColorBorder tb) (ColorDefault tb)])
     (upto (width + 2))
   ++
   flat_map (fun y =>
     [mkCell 0 y borderChar (ColorBorder tb) (ColorDefault tb);
      mkCell (width + 1) y borderChar (ColorBorder tb) (ColorDefault tb)])
     (map (fun i => 1 + i) (upto height)))%list.

(** [drawSnake], from the segment of index [i] on. *)
Fixpoint drawSnakeFrom (tb : Termbox) (i : nat) (body : list Position) : list Cell :=
  match body with
  | [] => []
  | pos :: rest =>
      let color :=
        if (i =? 0)%nat then Z.lor (ColorGreen tb) (AttrBold tb) else ColorSnake tb in
      mkCell (wrap (X pos + 1)) (wrap (Y pos + 1)) snakeChar color (ColorDefault tb)
      :: drawSnakeFrom tb (S i) rest
  end.

Definition drawSnake (tb : Termbox) (body : list Position) : list Cell :=
  drawSnakeFrom tb 0 body.

Definition drawFood (tb : Termbox) (fd : Position) : list Cell :=
  [mkCell (wrap (X fd + 1)) (wrap (Y fd + 1)) foodChar (ColorFood tb) (ColorDefault tb)].

Definition instructions : string := " PRESS Q TO QUIT ".

Definition drawScore (tb : Termbox) (sc : Z) : list Cell :=
  let scoreText := Sprintf " SCORE: %d " sc in
  (map (fun p => mkCell (wrap (fst p + 2)) (height + 3) (snd p)
                        (ColorScore tb) (ColorBlue tb))
       (rangeString scoreText)
   ++
   map (fun p => mkCell (wrap (width + 2 - len instructions + fst p)) (height + 3)
                        (snd p) (ColorText tb) (ColorBlue tb))
       (rangeString instructions))%list.

Definition message : list string :=
  ["╔═════════════════════╗";
   "║      GAME OVER      ║";
   "║                     ║";
   "║   FINAL SCORE: %3d  ║";
   "║                     ║";
   "║  PRESS Q TO QUIT    ║";
   "╚═════════════════════╝"].

(** The loop of [drawGameOver], from the line of index [i] on; Go's [/]
    on [int] truncates towards zero. *)
Fixpoint drawGameOverFrom (tb : Termbox) (sc yStart : Z) (i : nat)
  (lines : list string) : list Cell :=
  match lines with
  | [] => []
  | line0 :: rest =>
      let line := if (i =? 3)%nat then Sprintf line0 sc else line0 in
      let x := wrap (Z.quot (wrap (width - len line)) 2 + 1) in
      (map (fun p => mkCell (wrap (x + fst p)) (wrap (yStart + Z.of_nat i)) (snd p)
                            (ColorGameOver tb) (ColorDefault tb))
           (rangeString line)
       ++ drawGameOverFrom tb sc yStart (S i) rest)%list
  end.

Definition drawGameOver (tb : Termbox) (sc : Z) : list Cell :=
  let yStart := Z.quot (height - Z.of_nat (List.length message)) 2 in
  drawGameOverFrom tb sc yStart 0 message.

(** The [SetCell] calls of one [draw], between [termbox.Clear] and
    [termbox.Flush], on the variables a frame records. *)
Definition paint (tb : Termbox) (f : Frame) : list Cell :=
  (drawBorder tb ++ drawSnake tb (f_snake f) ++ drawFood tb (f_food f)
   ++ drawScore tb (f_score f)
   ++ (if f_gameOver f then drawGameOver tb (f_score f) else []))%list.

(** The back buffer after [Clear] and a list of [SetCell] calls, at a cell
    of the terminal: the last call made on that cell, if any. *)
Fixpoint screenAt (cells : list Cell) (x y : Z) : option Cell :=
  match cells with
  | [] => None
  | c :: rest =>
      match screenAt rest x y with
      | Some c' => Some c'
      | None => if (c_x c =? x) && (c_y c =? y) then Some c else None
      end
  end.

(** The cells [drawBorder] is meant to paint: the frame around the board. *)
Definition onFrame (x y : Z) : Prop :=
  (0 <= x <= width + 1 /\ (y = 0 \/ y = height + 1)) \/
  ((x = 0 \/ x = width + 1) /\ 1 <= y <= height).

(** Whether the game-over box painted for score [sc] holds, from column 19
    of row 9 on, the bytes of the score as [%3d] writes it. *)
Definition boxShowsScore (tb : Termbox) (sc : Z) : bool :=
  let cells := drawGameOver tb sc in
  let digits := pad3 (itoa sc) in
  forallb
    (fun i =>
       match String.get i digits with
       | Some d =>
           match screenAt cells (19 + Z.of_nat i) 9 with
           | Some c => c_ch c =? byteOf d
           | None => false
           end
       | None => true
       end)
    (seq 0 8).

(** *** The input goroutine: [readInput] *)

(** The messages [readInput] sends on [inputCh], and the closing of
    [quitCh] after which it returns, for the events [PollEvent] delivers. *)
Fixpoint readInput (tb : Termbox) (evs : list TermEvent) : list Event :=
  match evs with
  | [] => []
  | ev :: rest =>
      if ev_Type ev =? EventKey tb then
        if ev_Key ev =? KeyArrowUp tb then Key "UP" :: readInput tb rest
        else if ev_Key ev =? KeyArrowDown tb then Key "DOWN" :: readInput tb rest
        else if ev_Key ev =? KeyArrowLeft tb then Key "LEFT" :: readInput tb rest
        else if ev_Key ev =? KeyArrowRight tb then Key "RIGHT" :: readInput tb rest
        else if (ev_Ch ev =? 113) || (ev_Key ev =? KeyEsc tb) then [Quit]
        else readInput tb rest
      else readInput tb rest
  end.

(** A key press that makes [readInput] close [quitCh]: [q] or Escape, and
    not an arrow key. *)
Definition quitPress (tb : Termbox) (ev : TermEvent) : Prop :=
  ev_Type ev = EventKey tb /\
  ev_Key ev <> KeyArrowUp tb /\ ev_Key ev <> KeyArrowDown tb /\
  ev_Key ev <> KeyArrowLeft tb /\ ev_Key ev <> KeyArrowRight tb /\
  (ev_Ch ev = 113 \/ ev_Key ev = KeyEsc tb).

(** An assignment of the constants, for the examples. *)
Definition sampleTermbox : Termbox :=
  mkTermbox 0 65517 65516 65515 65514 27 0 2 3 4 5 7 8 512.

(** ** The item service *)

(** The second program of the repository: an HTTP service that keeps
    items in a map guarded by a mutex.  Every handler does its reading and
    writing of [items] and [idSeq] while it holds the mutex, so the
    handlers act on the store one after the other, in the order in which
    they take the lock.  What the libraries compute from a request is part
    of the request here: the outcome of [strconv.Atoi] on the end of the
    path and the outcome of decoding the JSON body. *)
Module ItemStore.

Record Item : Type := mkItem { ID : Z; Name : string; Price : Z }.

(** The package-level variables [items] and [idSeq]; [map[int]Item] is a
    finite map from integers to items. *)
Record Store : Type := mkStore { items : gmap.gmap Z Item; idSeq : Z }.

Record Request : Type := mkRequest {
  method : string;
  pathID : option Z;        (* [strconv.Atoi(r.URL.Path[len("/items/"):])], [None] on error *)
  decoded : option Item     (* [json.NewDecoder(r.Body).Decode], [None] on error *)
}.

Inductive Body : Type :=
| NoBody
| Text (msg : string)             (* the message given to [http.Error] *)
| JsonItem (item : Item)
| JsonList (itemList : list Item).

Record Response : Type := mkResponse {
  status : Z;
  contentType : string;
  body : Body
}.

(** [http.Error(w, msg, code)]. *)
Definition httpError (msg : string) (code : Z) : Response :=
  mkResponse code "text/plain; charset=utf-8" (Text msg).

(** A JSON body written with the Content-Type header set. *)
Definition jsonResponse (code : Z) (b : Body) : Response :=
  mkResponse code "application/json" b.

(** The variables when [main] starts. *)
Definition initial : Store := mkStore base.empty 1.

(** The items come in the order in which [range] visits the map, which Go
    leaves unspecified; [map_to_list] is one such order. *)
Definition getItems (st : Store) : Store * Response :=
  (st, jsonResponse 200 (JsonList (List.map snd (fin_maps.map_to_list (items st))))).

Definition createItem (r : Request) (st : Store) : Store * Response :=
  match decoded r with
  | None => (st, httpError "Invalid request body" 400)
  | Some body =>
      let newItem := mkItem (idSeq st) (Name body) (Price body) in
      (mkStore (base.insert (idSeq st) newItem (items st)) (wrap (idSeq st + 1)),
       jsonResponse 201 (JsonItem newItem))
  end.

Definition getItem (r : Request) (st : Store) : Store * Response :=
  match pathID r with
  | None => (st, httpError "Invalid item ID" 400)
  | Some id =>
      match base.lookup id (items st) with
      | None => (st, httpError "Item not found" 404)
      | Some item => (st, jsonResponse 200 (JsonItem item))
      end
  end.

Definition updateItem (r : Request) (st : Store) : Store * Response :=
  match pathID r with
  | None => (st, httpError "Invalid item ID" 400)
  | Some id =>
      match decoded r with
      | None => (st, httpError "Invalid request body" 400)
      | Some body =>
          match base.lookup id (items st) with
          | None => (st, httpError "Item not found" 404)
          | Some _ =>
              let updatedItem := mkItem id (Name body) (Price body) in
              (mkStore (base.insert id updatedItem (items st)) (idSeq st),
               jsonResponse 200 (JsonItem updatedItem))
          end
      end
  end.

Definition deleteItem (r : Request) (st : Store) : Store * Response :=
  match pathID r with
  | None => (st, httpError "Invalid item ID" 400)
  | Some id =>
      match base.lookup id (items st) with
      | None => (st, httpError "Item not found" 404)
      | Some _ =>
          (mkStore (base.delete id (items st)) (idSeq st), mkResponse 204 "" NoBody)
      end
  end.

Definition handleItems (r : Request) (st : Store) : Store * Response :=
  if (method r =? "GET")%string then getItems st
  else if (method r =? "POST")%string then createItem r st
  else (st, httpError "Method not allowed" 405).

Definition handleItem (r : Request) (st : Store) : Store * Response :=
  if (method r =? "GET")%string then getItem r st
  else if (method r =? "PUT")%string then updateItem r st
  else if (method r =? "DELETE")%string then deleteItem r st
  else (st, httpError "Method not allowed" 405).

(** The two patterns [main] registers for the service. *)
Inductive Route : Type :=
| Collection      (* "/items" *)
| Member.         (* "/items/" *)

Definition serve (rt : Route) (r : Request) (st : Store) : Store * Response :=
  match rt with
  | Collection => handleItems r st
  | Member => handleItem r st
  end.

(** The store after a sequence of requests. *)
Fixpoint serveAll (reqs : list (Route * Request)) (st : Store) : Store :=
  match reqs with
  | [] => st
  | (rt, r) :: rest => serveAll rest (fst (serve rt r st))
  end.

(** Every item sits under its own ID, and every ID in use was handed out
    by [createItem]: it lies between 1 and [idSeq]. *)
Definition consistent (st : Store) : Prop :=
  1 <= idSeq st <= int_max /\
  forall k item, base.lookup k (items st) = Some item ->
                 ID item = k /\ 1 <= k < idSeq st.

End ItemStore.

(** ** Concrete streams and states used as examples *)

(** A generator that always yields 0: the food goes to the corner (0,0). *)
Definition rawZero : nat -> Z := fun _ => 0.

(** A generator that puts the first food right in front of the snake, the
    second one cell further, and every later one in the corner. *)
Definition rawAhead : nat -> Z := fun n =>
  match n with
  | 0%nat => 11
  | 1%nat => 10
  | 2%nat => 12
  | 3%nat => 10
  | _ => 0
  end.

(** A snake that covers the whole board. *)
Definition fullBoard : State :=
  mkState allCells (mkPosition 0 0) "RIGHT" false 4990 0%nat [].

(** The state left by a game in which no key is pressed: the snake runs
    from (10,10) into the right wall in fifteen ticks. *)
Definition ranIntoWall : State :=
  match runGame rawZero 1 (repeat Tick 15) with
  | Ok s => s
  | _ => boot
  end.

(** The state left by the [rawZero] game when Up is pressed at once: the
    snake runs from (10,10) into the top wall in eleven ticks. *)
Definition ranIntoCeiling : State :=
  match runGame rawZero 1 (Key "UP" :: repeat Tick 11) with
  | Ok s => s
  | _ => boot
  end.

(** A closed tour of the board: from (0,0) along row 0, back along row 1,
    and so on to the end of row 19, always within the columns 1 to 24, and
    home up column 0. *)
Definition tourRow (r : nat) : list Position :=
  let xs := map (fun i => Z.of_nat (S i)) (seq 0 24) in
  map (fun x => mkPosition x (Z.of_nat r)) (if Nat.even r then xs else rev xs).

Definition tour : list Position :=
  (mkPosition 0 0 :: flat_map tourRow (seq 0 20)
   ++ map (fun i => mkPosition 0 (19 - Z.of_nat i)) (seq 0 19))%list.

(** The tour taken from (10,10), its cell number 250. *)
Definition tourFrom (k : nat) : Position :=
  nth ((250 + k) mod 500) tour (mkPosition 0 0).

(** The arrow key that leads from a cell to a neighbour. *)
Definition headingTo (a b : Position) : string :=
  if X b <? X a then "LEFT"
  else if X a <? X b then "RIGHT"
  else if Y b <? Y a then "UP"
  else "DOWN".

(** A generator that always puts the food on the next cell of the tour. *)
Definition rawTour : nat -> Z := fun n =>
  let p := tourFrom (S (Nat.div n 2)) in
  if Nat.even n then X p else Y p.

(** A player who follows the tour: before each of 498 ticks the key towards
    the next cell, and after the last of them the key towards the cell that
    is left. *)
Definition tourEvents : list Event :=
  (flat_map (fun k => [Key (headingTo (tourFrom k) (tourFrom (S k))); Tick]) (seq 0 498)
   ++ [Key (headingTo (tourFrom 498) (tourFrom 499))])%list.

(** The state that game is in: 499 segments, the food on the one free
    cell, (9,10), and the head at (8,10) heading for it. *)
Definition oneCellLeft : State :=
  match runGame rawTour 1 tourEvents with
  | Ok s => s
  | _ => boot
  end.

(** Scenario 2 of the specification. *)
Definition scenario2 : State :=
  mkState [mkPosition 5 5; mkPosition 4 5; mkPosition 3 5] (mkPosition 6 5)
          "RIGHT" false 20 0%nat [].

(** Scenario 3 of the specification. *)
Definition scenario3 : State :=
  mkState [mkPosition 0 5; mkPosition 1 5] (mkPosition 7 7)
          "LEFT" false 10 0%nat [].

(** The state of the [rawAhead] game after two ticks: two foods eaten. *)
Definition fedTwice : State :=
  mkState [mkPosition 12 10; mkPosition 11 10; mkPosition 10 10]
          (mkPosition 0 0) "RIGHT" false 20 6%nat
          [mkFrame [mkPosition 11 10; mkPosition 10 10] (mkPosition 12 10) 10 false;
           mkFrame [mkPosition 12 10; mkPosition 11 10; mkPosition 10 10]
                   (mkPosition 0 0) 20 false].

(** The state of the [rawZero] game right after [initializeGame]. *)
Definition justStarted : State :=
  mkState [mkPosition 10 10] (mkPosition 0 0) "RIGHT" false 0 2%nat [].

(** ** Basic facts *)

Lemma wrap_id (z : Z) : in_range z -> wrap z = z.
Proof.
  unfold in_range, int_min, int_max, wrap; intros Hz.
  rewrite Z.mod_small; lia.
Qed.

Lemma samePos_true (a b : Position) : samePos a b = true <-> a = b.
Proof.
  destruct a as [ax ay], b as [bx by_]; unfold samePos; simpl.
  rewrite andb_true_iff, !Z.eqb_eq.
  split; [intros [-> ->]; reflexivity | intros H; injection H; auto].
Qed.

Lemma samePos_false (a b : Position) : samePos a b = false <-> a <> b.
Proof.
  rewrite <- samePos_true. destruct (samePos a b); split; congruence.
Qed.

Lemma validPosition_true (p : Position) (l : list Position) :
  validPosition p l = true <-> ~ In p l.
Proof.
  induction l as [|q l IH]; simpl.
  - split; auto.
  - destruct (samePos p q) eqn:E.
    + apply samePos_true in E; subst q. split; [discriminate | tauto].
    + apply samePos_false in E. rewrite IH. split; [intros H [H1|H1] | ]; auto.
Qed.

Lemma validPosition_false (p : Position) (l : list Position) :
  validPosition p l = false <-> In p l.
Proof.
  induction l as [|q l IH]; simpl.
  - split; [discriminate | tauto].
  - destruct (samePos p q) eqn:E.
    + apply samePos_true in E; subst q. split; auto.
    + apply samePos_false in E. rewrite IH. split; [auto | intros [H|H]]; congruence.
Qed.

Lemma outside_false (p : Position) : outside p = false <-> inBounds p.
Proof.
  unfold outside, inBounds, width, height.
  rewrite !orb_false_iff, !Z.ltb_ge, !Z.geb_leb, !Z.leb_gt. lia.
Qed.

Lemma outside_true (p : Position) : outside p = true <-> ~ inBounds p.
Proof.
  rewrite <- outside_false. destruct (outside p); split; congruence.
Qed.

Lemma sampleAt_inBounds (raw : nat -> Z) (n : nat) : inBounds (sampleAt raw n).
Proof.
  unfold inBounds, sampleAt, width, height; simpl.
  split; apply Z.mod_pos_bound; lia.
Qed.

(** ** The board as a finite list of cells *)

Lemma cellOf_inj (m n : nat) : cellOf m = cellOf n -> m = n.
Proof.
  unfold cellOf, height; intros H; injection H as Hq Hr.
  pose proof (Z.div_mod (Z.of_nat m) 20 ltac:(lia)).
  pose proof (Z.div_mod (Z.of_nat n) 20 ltac:(lia)).
  lia.
Qed.

Lemma allCells_NoDup : NoDup allCells.
Proof.
  unfold allCells. apply Injective_map_NoDup.
  - intros m n; apply cellOf_inj.
  - apply seq_NoDup.
Qed.

Lemma allCells_length : List.length allCells = cellCount.
Proof. unfold allCells. rewrite length_map, length_seq. reflexivity. Qed.

Lemma allCells_In (p : Position) : In p allCells <-> inBounds p.
Proof.
  unfold allCells, cellCount, inBounds, width, height. rewrite in_map_iff. split.
  - intros [n [<- Hn]]. apply in_seq in Hn. unfold cellOf, height; simpl X; simpl Y.
    pose proof (Z.mod_pos_bound (Z.of_nat n) 20 ltac:(lia)).
    pose proof (Z.div_mod (Z.of_nat n) 20 ltac:(lia)).
    split; [|lia]. split; [apply Z.div_pos; lia | apply Z.div_lt_upper_bound; lia].
  - intros [Hx Hy]. exists (Z.to_nat (X p * 20 + Y p)). split.
    + unfold cellOf, height. rewrite Z2Nat.id by lia.
      destruct p as [x y]; simpl in *. f_equal.
      * symmetry; apply Z.div_unique with (r := y); lia.
      * symmetry; apply Z.mod_unique with (q := x); lia.
    + apply in_seq. lia.
Qed.

(** A body shorter than the cell count leaves a cell free. *)
Lemma free_cell_exists (body : list Position) :
  (List.length body < cellCount)%nat ->
  exists p, inBounds p /\ validPosition p body = true.
Proof.
  intros Hlen.
  destruct (find (fun p => validPosition p body) allCells) as [p|] eqn:F.
  - apply find_some in F. destruct F as [Hin Hv].
    exists p. split; [apply allCells_In; exact Hin | exact Hv].
  - exfalso.
    assert (Hincl : incl allCells body).
    { intros p Hp. apply validPosition_false.
      pose proof (find_none _ _ F p Hp) as Hn. exact Hn. }
    pose proof (NoDup_incl_length allCells_NoDup Hincl) as Hle.
    rewrite allCells_length in Hle. lia.
Qed.

(** A body of distinct in-bounds cells has at most [width * height] of them. *)
Lemma body_length_bound (body : list Position) :
  NoDup body -> Forall inBounds body ->
  (List.length body <= cellCount)%nat.
Proof.
  intros Hnd Hin. rewrite <- allCells_length.
  apply NoDup_incl_length; [exact Hnd|].
  intros p Hp. apply allCells_In. rewrite Forall_forall in Hin. auto.
Qed.

(** ** The retry loop of [placeFood] *)

Section PlaceFood.

Variable raw : nat -> Z.

(** One iteration of the loop: draw two numbers, store the food, scan the
    snake, leave the loop or go round again. *)
Lemma placeFood_step (fuel : nat) (s : State) :
  placeFood raw (S fuel) s =
  let fd := sampleAt raw (randCalls s) in
  let s3 := set_food fd (set_randCalls (2 + randCalls s) s) in
  if validPosition fd (snake s) then Ok s3 else placeFood raw fuel s3.
Proof. reflexivity. Qed.

Lemma placeFood_Ok (fuel : nat) :
  forall s s', placeFood raw fuel s = Ok s' ->
  exists k, (k < fuel)%nat /\ s' = placedAfter raw k s /\
    validPosition (sampleAt raw (randCalls s + 2 * k)) (snake s) = true /\
    forall j, (j < k)%nat ->
      validPosition (sampleAt raw (randCalls s + 2 * j)) (snake s) = false.
Proof.
  induction fuel as [|fuel IH]; intros s s' H.
  - discriminate H.
  - rewrite placeFood_step in H. cbv zeta in H.
    destruct (validPosition (sampleAt raw (randCalls s)) (snake s)) eqn:V.
    + injection H as <-. exists 0%nat. repeat split.
      * lia.
      * unfold placedAfter. rewrite Nat.add_0_r. f_equal.
        unfold set_randCalls. f_equal. lia.
      * rewrite Nat.add_0_r. exact V.
      * intros j Hj. lia.
    + apply IH in H. destruct H as [k [Hk [Hs' [Hv Hrej]]]].
      simpl randCalls in *. simpl snake in *.
      exists (S k). repeat split.
      * lia.
      * rewrite Hs'. unfold placedAfter, set_food, set_randCalls; simpl.
        f_equal; f_equal; lia.
      * replace (randCalls s + 2 * S k)%nat with (S (S (randCalls s + 2 * k))) by lia.
        exact Hv.
      * intros [|j] Hj.
        -- rewrite Nat.add_0_r. exact V.
        -- replace (randCalls s + 2 * S j)%nat with (S (S (randCalls s + 2 * j))) by lia.
           apply Hrej. lia.
Qed.

(** If the [k]-th position drawn is free, [k + 1] rounds are enough. *)
Lemma placeFood_finds (k : nat) :
  forall fuel s, (k < fuel)%nat ->
  validPosition (sampleAt raw (randCalls s + 2 * k)) (snake s) = true ->
  exists s', placeFood raw fuel s = Ok s'.
Proof.
  induction k as [|k IH]; intros [|fuel] s Hk Hv; try lia.
  - rewrite placeFood_step. cbv zeta.
    rewrite Nat.add_0_r in Hv. rewrite Hv. eauto.
  - rewrite placeFood_step. cbv zeta.
    destruct (validPosition (sampleAt raw (randCalls s)) (snake s)); [eauto|].
    apply IH; [lia|]. simpl randCalls. simpl snake.
    replace (S (S (randCalls s)) + 2 * k)%nat with (randCalls s + 2 * S k)%nat by lia.
    exact Hv.
Qed.

(** On a board the snake covers entirely the loop never exits. *)
Lemma placeFood_full (fuel : nat) :
  forall s, (forall p, inBounds p -> In p (snake s)) ->
  placeFood raw fuel s = Diverge.
Proof.
  induction fuel as [|fuel IH]; intros s Hfull.
  - reflexivity.
  - rewrite placeFood_step. cbv zeta.
    rewrite (proj2 (validPosition_false _ _)).
    + apply IH. exact Hfull.
    + apply Hfull. apply sampleAt_inBounds.
Qed.

Lemma placedAfter_fields (k : nat) (s : State) :
  snake (placedAfter raw k s) = snake s /\
  direction (placedAfter raw k s) = direction s /\
  gameOver (placedAfter raw k s) = gameOver s /\
  score (placedAfter raw k s) = score s /\
  frames (placedAfter raw k s) = frames s /\
  food (placedAfter raw k s) = sampleAt raw (randCalls s + 2 * k).
Proof. repeat split. Qed.

End PlaceFood.

(** ** [handleInput], [checkCollisions] and [move] as state updates *)

Lemma handleInput_cases (key : string) (s : State) :
  handleInput key s = s \/ handleInput key s = set_direction key s.
Proof.
  unfold handleInput.
  repeat match goal with |- context [if ?b then _ else _] => destruct b end; auto.
Qed.

Lemma handleInput_fields (key : string) (s : State) :
  snake (handleInput key s) = snake s /\
  food (handleInput key s) = food s /\
  gameOver (handleInput key s) = gameOver s /\
  score (handleInput key s) = score s /\
  randCalls (handleInput key s) = randCalls s /\
  frames (handleInput key s) = frames s.
Proof.
  destruct (handleInput_cases key s) as [-> | ->]; repeat split.
Qed.

Lemma hitSegment_fold (head : Position) (rest : list Position) :
  forall s, fold_left (hitSegment head) rest s =
            if existsb (samePos head) rest then set_gameOver true s else s.
Proof.
  induction rest as [|segment rest IH]; intros s; simpl.
  - reflexivity.
  - rewrite IH. unfold hitSegment.
    destruct (samePos head segment); simpl; [|reflexivity].
    destruct (existsb (samePos head) rest); reflexivity.
Qed.

Lemma checkCollisions_spec (s : State) :
  snake s <> [] -> checkCollisions s = Ok (flagCollision s).
Proof.
  unfold checkCollisions, flagCollision, collides.
  destruct (snake s) as [|head rest]; [congruence|]. intros _.
  rewrite hitSegment_fold.
  destruct (outside head); simpl; [|reflexivity].
  destruct (existsb (samePos head) rest); reflexivity.
Qed.

Lemma firstn_drop_last (a : Position) (l : list Position) :
  l <> [] ->
  firstn (List.length (a :: l) - 1) (a :: l) = a :: removelast l.
Proof.
  destruct l as [|b l]; [congruence|]. intros _.
  rewrite (removelast_firstn_len (b :: l)).
  simpl List.length. rewrite Nat.sub_succ, Nat.sub_0_r. reflexivity.
Qed.

Lemma move_eat (raw : nat -> Z) (fuel : nat) (s : State) :
  snake s <> [] -> newHeadOf s = food s ->
  move raw fuel s = placeFood raw fuel (grown s).
Proof.
  unfold move, newHeadOf, grown.
  destruct (snake s) as [|head tl] eqn:E; [congruence|]. intros _ Hf.
  simpl hd in *. cbv zeta. simpl food.
  rewrite (proj2 (samePos_true _ _) Hf). unfold newHeadOf. rewrite E. reflexivity.
Qed.

Lemma move_slide (raw : nat -> Z) (fuel : nat) (s : State) :
  snake s <> [] -> newHeadOf s <> food s ->
  move raw fuel s = Ok (slid s).
Proof.
  unfold move, newHeadOf, slid.
  destruct (snake s) as [|head tl] eqn:E; [congruence|]. intros _ Hf.
  simpl hd in *. cbv zeta. simpl food.
  rewrite (proj2 (samePos_false _ _) Hf). unfold newHeadOf. rewrite E.
  simpl snake. rewrite firstn_drop_last by discriminate. reflexivity.
Qed.

Lemma onTick_over (raw : nat -> Z) (fuel : nat) (s : State) :
  gameOver s = true -> onTick raw fuel s = Ok s.
Proof. unfold onTick. intros ->. reflexivity. Qed.

Lemma onTick_slide (raw : nat -> Z) (fuel : nat) (s : State) :
  gameOver s = false -> snake s <> [] -> newHeadOf s <> food s ->
  onTick raw fuel s = Ok (draw (flagCollision (slid s))).
Proof.
  intros Hg Hs Hf. unfold onTick. rewrite Hg. simpl negb. cbv iota.
  rewrite move_slide by assumption. cbn [bind].
  rewrite checkCollisions_spec by (simpl; discriminate). reflexivity.
Qed.

Lemma onTick_eat (raw : nat -> Z) (fuel : nat) (s : State) :
  gameOver s = false -> snake s <> [] -> newHeadOf s = food s ->
  onTick raw fuel s =
  (s1 <- placeFood raw fuel (grown s) ;; Ok (draw (flagCollision s1))).
Proof.
  intros Hg Hs Hf. unfold onTick. rewrite Hg. simpl negb. cbv iota.
  rewrite move_eat by assumption.
  destruct (placeFood raw fuel (grown s)) as [s1| |] eqn:P; cbn [bind]; try reflexivity.
  apply placeFood_Ok in P. destruct P as [k [_ [-> _]]].
  rewrite checkCollisions_spec by (simpl; discriminate). reflexivity.
Qed.

(** ** Facts about dropping the last segment *)

Lemma removelast_snoc (l : list Position) :
  l <> [] -> l = (removelast l ++ [last l (mkPosition 0 0)])%list.
Proof. intros H. apply app_removelast_last. exact H. Qed.

Lemma removelast_In (p : Position) (l : list Position) :
  In p (removelast l) -> In p l.
Proof.
  destruct l as [|a l]; [auto|]. intros H.
  rewrite (removelast_snoc (a :: l)) by discriminate.
  apply in_or_app. left. exact H.
Qed.

Lemma removelast_NoDup (l : list Position) : NoDup l -> NoDup (removelast l).
Proof.
  destruct l as [|a l]; [auto|]. intros H.
  rewrite (removelast_snoc (a :: l)) in H by discriminate.
  apply NoDup_app_remove_r in H. exact H.
Qed.

Lemma removelast_Forall (P : Position -> Prop) (l : list Position) :
  Forall P l -> Forall P (removelast l).
Proof.
  rewrite !Forall_forall. intros H p Hp. apply H. apply removelast_In. exact Hp.
Qed.

Lemma removelast_length (l : list Position) :
  l <> [] -> S (List.length (removelast l)) = List.length l.
Proof.
  intros H. rewrite (removelast_snoc l H) at 2.
  rewrite length_app. simpl. lia.
Qed.

Lemma last_not_in_removelast (l : list Position) :
  NoDup l -> l <> [] -> ~ In (last l (mkPosition 0 0)) (removelast l).
Proof.
  intros Hnd Hl. rewrite (removelast_snoc l Hl) in Hnd.
  apply NoDup_remove_2 in Hnd. rewrite app_nil_r in Hnd. exact Hnd.
Qed.

Lemma existsb_samePos_false (p : Position) (l : list Position) :
  existsb (samePos p) l = false <-> ~ In p l.
Proof.
  induction l as [|q l IH]; simpl.
  - tauto.
  - rewrite orb_false_iff, IH, samePos_false. split.
    + intros [H1 H2] [H|H]; auto.
    + intros H; split; auto.
Qed.

Lemma collides_false (head : Position) (rest : list Position) :
  collides (head :: rest) = false <-> inBounds head /\ ~ In head rest.
Proof.
  unfold collides. rewrite orb_false_iff, outside_false, existsb_samePos_false.
  tauto.
Qed.

(** ** The invariant of the game loop *)

(** Reduce the projections of an updated state, and nothing else. *)
Ltac fields :=
  cbn [snake food direction gameOver score randCalls frames
       draw slid grown placedAfter
       set_snake set_food set_direction set_gameOver set_score
       set_randCalls set_frames List.length] in *.

Section Invariant.

Variable raw : nat -> Z.

Lemma Inv_init (fuel : nat) (s : State) :
  initializeGame raw fuel boot = Ok s -> Inv s.
Proof.
  unfold initializeGame. intros H.
  apply placeFood_Ok in H. destruct H as [k [_ [-> [Hv _]]]].
  simpl snake in Hv. apply validPosition_true in Hv.
  constructor; simpl.
  - discriminate.
  - reflexivity.
  - unfold cellCount; simpl; lia.
  - exact Hv.
  - apply sampleAt_inBounds.
  - intros _. split.
    + constructor; [simpl; tauto | constructor].
    + constructor; [|constructor].
      unfold inBounds, width, height; simpl X; simpl Y.
      change (25 / 2 - 2) with 10. change (20 / 2) with 10. lia.
Qed.

Lemma Inv_input (key : string) (s : State) : Inv s -> Inv (handleInput key s).
Proof.
  intros [H1 H2 H3 H4 H5 H6].
  destruct (handleInput_cases key s) as [-> | ->]; constructor; assumption.
Qed.

Lemma Inv_slide (s : State) :
  Inv s -> gameOver s = false -> newHeadOf s <> food s ->
  Inv (draw (flagCollision (slid s))).
Proof.
  intros [Hb Hsc Hlen Hfd Hfin Hact] Hg Hne.
  destruct (Hact Hg) as [Hnd Hall].
  pose proof (removelast_length (snake s) Hb) as Hrl.
  assert (Hfd' : ~ In (food s) (newHeadOf s :: removelast (snake s))).
  { intros [H|H]; [congruence | apply Hfd; apply removelast_In; exact H]. }
  unfold flagCollision.
  destruct (collides (snake (slid s))) eqn:C; constructor; fields;
    try discriminate; try (rewrite Hsc; lia); try lia; try assumption.
  intros _. apply collides_false in C. destruct C as [Hin Hnot].
  split.
  - constructor; [exact Hnot | apply removelast_NoDup; exact Hnd].
  - constructor; [exact Hin | apply removelast_Forall; exact Hall].
Qed.

Lemma Inv_eat (k : nat) (s : State) :
  Inv s -> gameOver s = false -> newHeadOf s = food s ->
  validPosition (sampleAt raw (randCalls (grown s) + 2 * k)) (snake (grown s)) = true ->
  Inv (draw (flagCollision (placedAfter raw k (grown s)))) /\
  flagCollision (placedAfter raw k (grown s)) = placedAfter raw k (grown s) /\
  wrap (score s + 10) = score s + 10.
Proof.
  intros [Hb Hsc Hlen Hfd Hfin Hact] Hg Heq Hv.
  destruct (Hact Hg) as [Hnd Hall].
  pose proof (body_length_bound _ Hnd Hall) as Hbound.
  assert (Hw : wrap (score s + 10) = score s + 10).
  { apply wrap_id. unfold in_range, int_min, int_max. rewrite Hsc.
    unfold cellCount, width, height in Hbound. simpl in Hbound. lia. }
  assert (Hc : collides (newHeadOf s :: snake s) = false).
  { apply collides_false. rewrite Heq. auto. }
  assert (Hflag : flagCollision (placedAfter raw k (grown s)) = placedAfter raw k (grown s)).
  { unfold flagCollision. fields. rewrite Hc. reflexivity. }
  split; [|split; assumption].
  rewrite Hflag. apply validPosition_true in Hv.
  constructor; fields.
  - discriminate.
  - rewrite Hw, Hsc. lia.
  - lia.
  - exact Hv.
  - apply sampleAt_inBounds.
  - intros _. split.
    + constructor; [rewrite Heq; exact Hfd | exact Hnd].
    + constructor; [rewrite Heq; exact Hfin | exact Hall].
Qed.

Lemma Inv_tick (fuel : nat) (s s' : State) :
  Inv s -> onTick raw fuel s = Ok s' -> Inv s'.
Proof.
  intros HI H.
  destruct (gameOver s) eqn:Hg.
  - rewrite onTick_over in H by exact Hg. injection H as <-. exact HI.
  - destruct (samePos (newHeadOf s) (food s)) eqn:E.
    + apply samePos_true in E.
      rewrite onTick_eat in H by (try assumption; apply (inv_body _ HI)).
      destruct (placeFood raw fuel (grown s)) as [s1| |] eqn:P; try discriminate H.
      cbn [bind] in H. injection H as <-.
      apply placeFood_Ok in P. destruct P as [k [_ [-> [Hv _]]]].
      apply (Inv_eat k s HI Hg E Hv).
    + apply samePos_false in E.
      rewrite onTick_slide in H by (try assumption; apply (inv_body _ HI)).
      injection H as <-. apply Inv_slide; assumption.
Qed.

Lemma Inv_cycle (fuel : nat) (ev : Event) (s s' : State) :
  Inv s -> cycle raw fuel ev s = Ok s' -> Inv s'.
Proof.
  intros HI H. destruct ev as [|key|]; simpl in H.
  - eapply Inv_tick; eassumption.
  - injection H as <-. apply Inv_input. exact HI.
  - injection H as <-. exact HI.
Qed.

Lemma reachable_Inv (s : State) : reachable raw s -> Inv s.
Proof.
  induction 1 as [fuel s H | fuel ev s s' _ IH H].
  - eapply Inv_init; eassumption.
  - eapply Inv_cycle; eassumption.
Qed.

(** A run of [gameLoop] from a reachable state ends in a reachable state. *)
Lemma gameLoop_reachable (fuel : nat) (evs : list Event) :
  forall s s', reachable raw s -> gameLoop raw fuel evs s = Ok s' ->
  reachable raw s'.
Proof.
  induction evs as [|ev evs IH]; intros s s' Hr H.
  - injection H as <-. exact Hr.
  - destruct ev as [|key|].
    + cbn [gameLoop] in H.
      destruct (cycle raw fuel Tick s) as [s1| |] eqn:C; try discriminate H.
      cbn [bind] in H. eapply IH; [|exact H].
      eapply reach_cycle; eassumption.
    + cbn [gameLoop] in H.
      destruct (cycle raw fuel (Key key) s) as [s1| |] eqn:C; try discriminate H.
      cbn [bind] in H. eapply IH; [|exact H].
      eapply reach_cycle; eassumption.
    + injection H as <-. exact Hr.
Qed.

Lemma runGame_reachable (fuel : nat) (evs : list Event) (s : State) :
  runGame raw fuel evs = Ok s -> reachable raw s.
Proof.
  unfold runGame. intros H.
  destruct (initializeGame raw fuel boot) as [s0| |] eqn:I; try discriminate H.
  cbn [bind] in H. eapply gameLoop_reachable; [|exact H].
  eapply reach_init. exact I.
Qed.

End Invariant.

(** ** More on a tick that eats *)

Lemma flagCollision_fields (s : State) :
  snake (flagCollision s) = snake s /\
  food (flagCollision s) = food s /\
  score (flagCollision s) = score s /\
  direction (flagCollision s) = direction s /\
  randCalls (flagCollision s) = randCalls s /\
  frames (flagCollision s) = frames s /\
  gameOver (flagCollision s) = gameOver s || collides (snake s).
Proof.
  unfold flagCollision. destruct (collides (snake s)); fields;
    rewrite ?orb_true_r, ?orb_false_r; repeat split.
Qed.

Lemma onTick_eat_Ok (raw : nat -> Z) (fuel : nat) (s s' : State) :
  gameOver s = false -> snake s <> [] -> newHeadOf s = food s ->
  onTick raw fuel s = Ok s' ->
  exists k, (k < fuel)%nat /\
    s' = draw (flagCollision (placedAfter raw k (grown s))) /\
    ~ In (sampleAt raw (randCalls s + 2 * k)) (newHeadOf s :: snake s).
Proof.
  intros Hg Hs Hf H. rewrite onTick_eat in H by assumption.
  destruct (placeFood raw fuel (grown s)) as [s1| |] eqn:P; try discriminate H.
  cbn [bind] in H. injection H as <-.
  apply placeFood_Ok in P. destruct P as [k [Hk [-> [Hv _]]]].
  exists k. repeat split; [exact Hk|]. apply validPosition_true. exact Hv.
Qed.

Lemma onTick_eat_returns (raw : nat -> Z) (k fuel : nat) (s : State) :
  gameOver s = false -> snake s <> [] -> newHeadOf s = food s ->
  (k < fuel)%nat ->
  ~ In (sampleAt raw (randCalls s + 2 * k)) (newHeadOf s :: snake s) ->
  exists s', onTick raw fuel s = Ok s'.
Proof.
  intros Hg Hs Hf Hk Hfree. rewrite onTick_eat by assumption.
  destruct (placeFood_finds raw k fuel (grown s) Hk) as [s1 P].
  - apply validPosition_true. exact Hfree.
  - rewrite P. cbn [bind]. eauto.
Qed.

(** With none of the first [fuel] positions free, [fuel] rounds are not
    enough. *)
Lemma placeFood_starved (raw : nat -> Z) (fuel : nat) :
  forall s,
  (forall k, (k < fuel)%nat ->
     In (sampleAt raw (randCalls s + 2 * k)) (snake s)) ->
  placeFood raw fuel s = Diverge.
Proof.
  induction fuel as [|fuel IH]; intros s H.
  - reflexivity.
  - rewrite placeFood_step. cbv zeta.
    rewrite (proj2 (validPosition_false _ _)).
    + apply IH. fields. intros k Hk.
      match goal with
      | |- In (sampleAt raw ?n) _ =>
          replace n with (randCalls s + 2 * S k)%nat by lia
      end.
      apply H. lia.
    + specialize (H 0%nat ltac:(lia)). rewrite Nat.add_0_r in H. exact H.
Qed.

(** A body of [width * height] distinct cells of the board covers it. *)
Lemma full_body_covers (body : list Position) :
  NoDup body -> Forall inBounds body -> List.length body = cellCount ->
  forall p, inBounds p -> In p body.
Proof.
  intros Hnd Hall Hlen p Hp.
  assert (Hincl : incl body allCells).
  { intros q Hq. apply allCells_In. rewrite Forall_forall in Hall. auto. }
  apply (NoDup_length_incl (l := body) (l' := allCells) Hnd);
    [rewrite allCells_length; lia | exact Hincl |].
  apply allCells_In. exact Hp.
Qed.

Lemma onTick_eat_diverges (raw : nat -> Z) (fuel : nat) (s : State) :
  gameOver s = false -> snake s <> [] -> newHeadOf s = food s ->
  (forall k, (k < fuel)%nat ->
     In (sampleAt raw (randCalls s + 2 * k)) (newHeadOf s :: snake s)) ->
  onTick raw fuel s = Diverge.
Proof.
  intros Hg Hs Hf H. rewrite onTick_eat by assumption.
  rewrite placeFood_starved; [reflexivity|]. exact H.
Qed.

Lemma onTick_eat_full (raw : nat -> Z) (fuel : nat) (s : State) :
  gameOver s = false -> snake s <> [] -> newHeadOf s = food s ->
  (forall p, inBounds p -> In p (newHeadOf s :: snake s)) ->
  onTick raw fuel s = Diverge.
Proof.
  intros Hg Hs Hf H. apply onTick_eat_diverges; try assumption.
  intros k _. apply H. apply sampleAt_inBounds.
Qed.

(** In a state the loop can be waiting in, a tick that eats returns
    exactly when one of the positions drawn within the fuel is free; there
    is a free cell unless the grown snake fills the board, and then the
    tick never returns. *)
Lemma reachable_eat (raw : nat -> Z) (s : State) :
  reachable raw s -> gameOver s = false -> newHeadOf s = food s ->
  (forall fuel,
     (exists s', onTick raw fuel s = Ok s') <->
     (exists k, (k < fuel)%nat /\
        ~ In (sampleAt raw (randCalls s + 2 * k)) (newHeadOf s :: snake s))) /\
  ((S (List.length (snake s)) < cellCount)%nat ->
     exists p, inBounds p /\ ~ In p (newHeadOf s :: snake s)) /\
  ((S (List.length (snake s)) = cellCount)%nat ->
     forall raw' fuel, onTick raw' fuel s = Diverge).
Proof.
  intros Hr Hg Hf. pose proof (reachable_Inv raw s Hr) as HI.
  pose proof (inv_body _ HI) as Hb.
  split; [|split].
  - intros fuel. split.
    + intros [s' H]. destruct (onTick_eat_Ok raw fuel s s' Hg Hb Hf H) as [k [Hk [_ Hfree]]].
      exists k. split; assumption.
    + intros [k [Hk Hfree]]. eapply onTick_eat_returns; eassumption.
  - intros Hlen.
    destruct (free_cell_exists (newHeadOf s :: snake s) Hlen) as [p [Hp Hv]].
    exists p. split; [exact Hp | apply validPosition_true; exact Hv].
  - intros Hlen raw' fuel. apply onTick_eat_full; try assumption.
    destruct (inv_active _ HI Hg) as [Hnd Hall].
    apply full_body_covers.
    + constructor; [rewrite Hf; apply (inv_food _ HI) | exact Hnd].
    + constructor; [rewrite Hf; apply (inv_food_in _ HI) | exact Hall].
    + exact Hlen.
Qed.

(** With the food on a free cell, the snake cannot cover the board. *)
Lemma active_length (s : State) :
  Inv s -> gameOver s = false -> (List.length (snake s) < cellCount)%nat.
Proof.
  intros [_ _ _ Hfd Hfin Hact] Hg. destruct (Hact Hg) as [Hnd Hall].
  assert (H : (List.length (food s :: snake s) <= cellCount)%nat).
  { apply body_length_bound; constructor; assumption. }
  simpl in H. lia.
Qed.

Lemma fedTwice_reachable : reachable rawAhead fedTwice.
Proof.
  apply runGame_reachable with (fuel := 1%nat) (evs := [Tick; Tick]).
  vm_compute. reflexivity.
Qed.

Lemma justStarted_reachable : reachable rawZero justStarted.
Proof.
  apply runGame_reachable with (fuel := 1%nat) (evs := []).
  vm_compute. reflexivity.
Qed.

Lemma oneCellLeft_reachable : reachable rawTour oneCellLeft.
Proof.
  apply runGame_reachable with (fuel := 1%nat) (evs := tourEvents).
  vm_compute. reflexivity.
Qed.

Lemma oneCellLeft_facts :
  gameOver oneCellLeft = false /\
  List.length (snake oneCellLeft) = 499%nat /\
  newHeadOf oneCellLeft = food oneCellLeft.
Proof. split; [|split]; vm_compute; reflexivity. Qed.

(** * The claims *)

(** ** C1 *)

(** C1, as the code has it.  On a board the snake covers entirely
    ([fullBoard] has exactly [width * height] segments) [placeFood] neither
    returns nor reports anything, whatever the generator yields and however
    many rounds it is given: there is no board-full condition and no
    transition to game over. *)
Lemma C1_full_board_loops_forever :
  List.length (snake fullBoard) = cellCount /\
  ~ (exists (raw : nat -> Z) (fuel : nat), placeFood raw fuel fullBoard <> Diverge).
Proof.
  split.
  - apply allCells_length.
  - intros [raw [fuel H]]. apply H. apply placeFood_full.
    intros p Hp. apply allCells_In. exact Hp.
Qed.

(** C1, amended.  A body with fewer segments than the board has cells
    leaves a cell free, and [placeFood] returns as soon as the generator
    yields a free cell (after [k] rejected positions, [k + 1] rounds are
    enough), with the food on that in-bounds cell, off the snake, and with
    [snake] and [gameOver] untouched.  When the snake covers every cell the
    loop never exits. *)
Theorem C1_placeFood_termination (raw : nat -> Z) (s : State) :
  ((List.length (snake s) < cellCount)%nat ->
     exists p, inBounds p /\ ~ In p (snake s)) /\
  (forall k fuel, (k < fuel)%nat ->
     ~ In (sampleAt raw (randCalls s + 2 * k)) (snake s) ->
     exists s', placeFood raw fuel s = Ok s' /\
       inBounds (food s') /\ ~ In (food s') (snake s') /\
       snake s' = snake s /\ gameOver s' = gameOver s) /\
  ((forall p, inBounds p -> In p (snake s)) ->
     forall fuel, placeFood raw fuel s = Diverge).
Proof.
  split; [|split].
  - intros Hlen. destruct (free_cell_exists _ Hlen) as [p [Hp Hv]].
    exists p. split; [exact Hp | apply validPosition_true; exact Hv].
  - intros k fuel Hk Hfree.
    destruct (placeFood_finds raw k fuel s Hk) as [s' P].
    + apply validPosition_true. exact Hfree.
    + exists s'. split; [exact P|].
      apply placeFood_Ok in P. destruct P as [j [_ [-> [Hv _]]]].
      fields. split; [apply sampleAt_inBounds|].
      split; [apply validPosition_true; exact Hv|]. split; reflexivity.
  - intros Hfull fuel. apply placeFood_full. exact Hfull.
Qed.

(** On the freshly initialised one-segment snake, with a generator that
    yields the corner, one round is enough. *)
Lemma C1_placeFood_termination_witness :
  exists s', placeFood rawZero 1 (set_snake [mkPosition 10 10] boot) = Ok s'
             /\ food s' = mkPosition 0 0.
Proof.
  destruct (C1_placeFood_termination rawZero (set_snake [mkPosition 10 10] boot))
    as [_ [H _]].
  destruct (H 0%nat 1%nat) as [s' [P _]].
  - lia.
  - simpl. intros [E|[]]. discriminate E.
  - exists s'. split; [exact P|].
    simpl in P. injection P as <-. reflexivity.
Defined.

(** ** C7 *)

(** What [handleInput] does with the name of a direction, in terms of the
    one variable [direction]: nothing when [direction] holds the opposite
    name; otherwise [direction] holds the requested name afterwards and no
    other variable has changed. *)
Lemma handleInput_gate (s : State) (d : Dir) :
  (direction s = dirName (opposite d) -> handleInput (dirName d) s = s) /\
  (direction s <> dirName (opposite d) ->
     direction (handleInput (dirName d) s) = dirName d /\
     handleInput (dirName d) s = set_direction (dirName d) s).
Proof.
  split.
  - intros H. unfold handleInput. rewrite H. destruct d; reflexivity.
  - intros H. unfold handleInput.
    destruct d; simpl dirName in *; simpl opposite in *; cbn [String.eqb Ascii.eqb Bool.eqb];
      apply String.eqb_neq in H; rewrite H; split; reflexivity.
Qed.

(** C7, on the code.  [fedTwice] is the state of a game right after a tick
    that moved the snake to the right.  The key Up arrives and is taken.
    From then on, and before any other tick, the gate compares requests
    with UP, the request it has just stored, and no longer with RIGHT, the
    heading of the last tick: Left, the exact opposite of that heading, is
    taken ([direction] becomes LEFT), and Down, which is not its opposite,
    is refused (nothing changes). *)
Theorem C7_gate_compares_with_the_last_request :
  runGame rawAhead 1 [Tick; Tick] = Ok fedTwice /\
  direction fedTwice = "RIGHT" /\
  snake fedTwice =
    advanceHead "RIGHT" (mkPosition 11 10) :: [mkPosition 11 10; mkPosition 10 10] /\
  reachable rawAhead (handleInput "UP" fedTwice) /\
  direction (handleInput "UP" fedTwice) = "UP" /\
  snake (handleInput "UP" fedTwice) = snake fedTwice /\
  direction (handleInput "LEFT" (handleInput "UP" fedTwice)) = "LEFT" /\
  handleInput "DOWN" (handleInput "UP" fedTwice) = handleInput "UP" fedTwice.
Proof.
  split; [vm_compute; reflexivity|].
  split; [reflexivity|]. split; [vm_compute; reflexivity|].
  split.
  - apply (reach_cycle rawAhead 0 (Key "UP") fedTwice); [exact fedTwice_reachable|].
    reflexivity.
  - repeat split; reflexivity.
Qed.

(** ** C6 *)

Lemma gameLoop_over (raw : nat -> Z) (fuel : nat) (evs : list Event) :
  forall s, gameOver s = true ->
  exists s', gameLoop raw fuel evs s = Ok s' /\
    snake s' = snake s /\ food s' = food s /\ score s' = score s /\
    gameOver s' = true /\ frames s' = frames s.
Proof.
  induction evs as [|ev evs IH]; intros s Hg.
  - exists s. repeat split; assumption.
  - destruct ev as [|key|].
    + cbn [gameLoop cycle]. rewrite onTick_over by exact Hg. cbn [bind].
      apply IH. exact Hg.
    + cbn [gameLoop cycle bind].
      destruct (handleInput_fields key s) as [E1 [E2 [E3 [E4 [_ E6]]]]].
      destruct (IH (handleInput key s)) as [s' [R [F1 [F2 [F3 [F4 F5]]]]]].
      * rewrite E3. exact Hg.
      * exists s'. repeat split; congruence.
    + exists s. repeat split; assumption.
Qed.

Lemma ticks_over (raw : nat -> Z) (fuel : nat) (s : State) :
  gameOver s = true -> forall n, gameLoop raw fuel (repeat Tick n) s = Ok s.
Proof.
  intros Hg. induction n as [|n IH]; [reflexivity|].
  cbn [repeat gameLoop cycle]. rewrite onTick_over by exact Hg. exact IH.
Qed.

(** C6.  Once [gameOver] is set, any number of further ticks leaves every
    variable as it is, and any further run of the loop (ticks and keys in
    any order) returns with [snake], [food] and [score] unchanged and
    [gameOver] still set. *)
Theorem C6_over_is_frozen (raw : nat -> Z) (fuel : nat) (s : State) :
  gameOver s = true ->
  (forall n, gameLoop raw fuel (repeat Tick n) s = Ok s) /\
  (forall evs, exists s', gameLoop raw fuel evs s = Ok s' /\
     snake s' = snake s /\ food s' = food s /\ score s' = score s /\
     gameOver s' = true).
Proof.
  intros Hg. split.
  - apply ticks_over. exact Hg.
  - intros evs. destruct (gameLoop_over raw fuel evs s Hg) as [s' [R [F1 [F2 [F3 [F4 _]]]]]].
    exists s'. repeat split; assumption.
Qed.

Lemma C6_over_is_frozen_witness :
  gameOver ranIntoWall = true /\
  gameLoop rawZero 1 (repeat Tick 3) ranIntoWall = Ok ranIntoWall.
Proof.
  split.
  - reflexivity.
  - apply (proj1 (C6_over_is_frozen rawZero 1 ranIntoWall eq_refl) 3%nat).
Defined.

(** ** C3 *)

Lemma ranIntoWall_reachable : reachable rawZero ranIntoWall.
Proof.
  apply runGame_reachable with (fuel := 1%nat) (evs := repeat Tick 15).
  vm_compute. reflexivity.
Qed.

Lemma onTick_over_no_frame (raw : nat -> Z) (s : State) :
  gameOver s = true ->
  ~ (exists (fuel : nat) (s' : State),
       onTick raw fuel s = Ok s' /\
       List.length (frames s') = S (List.length (frames s))).
Proof.
  intros Hg [fuel [s' [H L]]].
  rewrite onTick_over in H by exact Hg. injection H as <-. lia.
Qed.

(** C3, as the code has it.  [ranIntoWall] is the state of a game that
    ended against the right wall; it is reachable and has [gameOver] set.
    No tick taken in it paints a frame. *)
Lemma C3_no_frame_once_over :
  reachable rawZero ranIntoWall /\ gameOver ranIntoWall = true /\
  ~ (exists (fuel : nat) (s' : State),
       onTick rawZero fuel ranIntoWall = Ok s' /\
       List.length (frames s') = S (List.length (frames ranIntoWall))).
Proof.
  split; [exact ranIntoWall_reachable|].
  assert (Hg : gameOver ranIntoWall = true) by (vm_compute; reflexivity).
  split; [exact Hg|]. apply onTick_over_no_frame. exact Hg.
Qed.

(** C3, amended.  On a tick taken with [gameOver] unset the loop runs
    [move] and [checkCollisions] and, when they have returned, paints
    exactly one frame, which shows the variables as that tick left them.
    Such a tick always returns when the new head is off the food.  When
    the new head is on the food it returns if one of the positions
    [placeFood] draws is free, and it never does if none is: within any
    number of rounds nothing is painted, as on every tick that would fill
    the board.  On a tick taken with [gameOver] set nothing happens: no
    variable changes and no frame is painted. *)
Theorem C3_tick_renders_while_active (raw : nat -> Z) (fuel : nat) (s : State) :
  (gameOver s = false -> forall s', onTick raw fuel s = Ok s' ->
     (exists s2, (s1 <- move raw fuel s ;; checkCollisions s1) = Ok s2 /\
                 s' = draw s2) /\
     frames s' =
       (frames s ++ [mkFrame (snake s') (food s') (score s') (gameOver s')])%list) /\
  (gameOver s = false -> snake s <> [] -> newHeadOf s <> food s ->
     exists s', onTick raw fuel s = Ok s') /\
  (gameOver s = false -> snake s <> [] -> newHeadOf s = food s ->
     ((exists k, (k < fuel)%nat /\
         ~ In (sampleAt raw (randCalls s + 2 * k)) (newHeadOf s :: snake s)) ->
      exists s', onTick raw fuel s = Ok s') /\
     ((forall k, (k < fuel)%nat ->
         In (sampleAt raw (randCalls s + 2 * k)) (newHeadOf s :: snake s)) ->
      onTick raw fuel s = Diverge) /\
     ((forall p, inBounds p -> In p (newHeadOf s :: snake s)) ->
      onTick raw fuel s = Diverge)) /\
  (gameOver s = true -> onTick raw fuel s = Ok s).
Proof.
  split; [|split; [|split]].
  - intros Hg s' H. unfold onTick in H. rewrite Hg in H. cbn [negb] in H.
    destruct (move raw fuel s) as [s1| |] eqn:M; try discriminate H.
    cbn [bind] in H.
    destruct (checkCollisions s1) as [s2| |] eqn:C; try discriminate H.
    cbn [bind] in H. injection H as <-.
    assert (F : frames s2 = frames s).
    { unfold checkCollisions in C. destruct (snake s1) as [|head rest] eqn:E1; [discriminate C|].
      injection C as <-. rewrite hitSegment_fold.
      assert (F1 : frames s1 = frames s).
      { unfold move in M. destruct (snake s) as [|h t]; [discriminate M|].
        cbv zeta in M.
        destruct (samePos _ _).
        - apply placeFood_Ok in M. destruct M as [k [_ [-> _]]]. reflexivity.
        - injection M as <-. reflexivity. }
      destruct (existsb _ _); destruct (outside head); fields; exact F1. }
    split.
    + exists s2. split; [|reflexivity].
      cbn [bind]. exact C.
    + fields. rewrite F. reflexivity.
  - intros Hg Hs Hf. rewrite onTick_slide by assumption. eauto.
  - intros Hg Hs Hf. split; [|split].
    + intros [k [Hk Hfree]]. eapply onTick_eat_returns; eassumption.
    + apply onTick_eat_diverges; assumption.
    + apply onTick_eat_full; assumption.
  - apply onTick_over.
Qed.

(** The first tick of a game: one frame, showing the snake one cell on. *)
Lemma C3_tick_renders_while_active_witness :
  exists s', onTick rawZero 1 (set_food (mkPosition 0 0) (set_snake [mkPosition 10 10]
                                (set_direction "RIGHT" boot))) = Ok s' /\
             frames s' = [mkFrame [mkPosition 11 10] (mkPosition 0 0) 0 false].
Proof.
  pose (s := set_food (mkPosition 0 0) (set_snake [mkPosition 10 10]
               (set_direction "RIGHT" boot))).
  destruct (C3_tick_renders_while_active rawZero 1 s) as [H1 [H2 _]].
  destruct H2 as [s' H]; [reflexivity | discriminate | discriminate |].
  exists s'. split; [exact H|].
  destruct (H1 eq_refl s' H) as [_ F]. rewrite F.
  vm_compute in H. injection H as <-. reflexivity.
Defined.

(** ** C8 and C9 *)

(** C8.  Whenever the loop waits for an event the snake has at least one
    segment, and while [gameOver] is unset its segments are pairwise
    distinct. *)
Theorem C8_body_distinct (raw : nat -> Z) (s : State) :
  reachable raw s ->
  (1 <= List.length (snake s))%nat /\
  (gameOver s = false -> NoDup (snake s)).
Proof.
  intros Hr. apply reachable_Inv in Hr. destruct Hr as [Hb _ _ _ _ Hact].
  split.
  - destruct (snake s); [congruence | simpl; lia].
  - intros Hg. apply (Hact Hg).
Qed.

Lemma C8_body_distinct_witness :
  reachable rawAhead
    (mkState [mkPosition 12 10; mkPosition 11 10; mkPosition 10 10]
             (mkPosition 0 0) "RIGHT" false 20 6%nat
             [mkFrame [mkPosition 11 10; mkPosition 10 10] (mkPosition 12 10) 10 false;
              mkFrame [mkPosition 12 10; mkPosition 11 10; mkPosition 10 10]
                      (mkPosition 0 0) 20 false]) /\
  NoDup [mkPosition 12 10; mkPosition 11 10; mkPosition 10 10].
Proof.
  assert (Hr : reachable rawAhead
    (mkState [mkPosition 12 10; mkPosition 11 10; mkPosition 10 10]
             (mkPosition 0 0) "RIGHT" false 20 6%nat
             [mkFrame [mkPosition 11 10; mkPosition 10 10] (mkPosition 12 10) 10 false;
              mkFrame [mkPosition 12 10; mkPosition 11 10; mkPosition 10 10]
                      (mkPosition 0 0) 20 false])).
  { apply runGame_reachable with (fuel := 1%nat) (evs := [Tick; Tick]).
    vm_compute. reflexivity. }
  split; [exact Hr|].
  apply (proj2 (C8_body_distinct rawAhead _ Hr)). reflexivity.
Defined.

(** C9.  Whenever the loop waits for an event the food is on none of the
    cells of the snake, whether the game is over or not. *)
Theorem C9_food_off_body (raw : nat -> Z) (s : State) :
  reachable raw s ->
  forall segment, In segment (snake s) -> segment <> food s.
Proof.
  intros Hr segment Hin E. apply reachable_Inv in Hr.
  apply (inv_food _ Hr). rewrite <- E. exact Hin.
Qed.

Lemma C9_food_off_body_witness :
  reachable rawZero ranIntoWall /\
  forall segment, In segment (snake ranIntoWall) -> segment <> food ranIntoWall.
Proof.
  split; [exact ranIntoWall_reachable|].
  apply (C9_food_off_body rawZero ranIntoWall ranIntoWall_reachable).
Defined.

(** ** C10 *)

Lemma onTick_into_tail (raw : nat -> Z) (fuel : nat) (s : State) :
  gameOver s = false -> NoDup (snake s) -> snake s <> [] ->
  inBounds (newHeadOf s) -> newHeadOf s <> food s ->
  newHeadOf s = last (snake s) (mkPosition 0 0) ->
  exists s', onTick raw fuel s = Ok s' /\ gameOver s' = false /\
             snake s' = newHeadOf s :: removelast (snake s).
Proof.
  intros Hg Hnd Hs Hin Hf Hl.
  rewrite onTick_slide by assumption. eexists. split; [reflexivity|].
  assert (C : collides (snake (slid s)) = false).
  { fields. apply collides_false. split; [exact Hin|].
    rewrite Hl. apply last_not_in_removelast; assumption. }
  unfold flagCollision. rewrite C. fields. split; [exact Hg | reflexivity].
Qed.

(** C10.  In a state the loop can be waiting in, with [gameOver] unset and
    a snake of at least two segments, a tick whose new head is inside the
    walls, off the food and on the cell of the last segment returns with
    [gameOver] still unset: [move] has dropped the last segment before
    [checkCollisions] compares the head with the others. *)
Theorem C10_tail_cell_is_free (raw : nat -> Z) (fuel : nat) (s : State) :
  reachable raw s -> gameOver s = false ->
  (2 <= List.length (snake s))%nat ->
  outside (newHeadOf s) = false ->
  newHeadOf s <> food s ->
  newHeadOf s = last (snake s) (mkPosition 0 0) ->
  exists s', onTick raw fuel s = Ok s' /\ gameOver s' = false /\
             snake s' = newHeadOf s :: removelast (snake s).
Proof.
  intros Hr Hg Hlen Hout Hf Hl.
  apply reachable_Inv in Hr. destruct Hr as [Hb _ _ _ _ Hact].
  apply onTick_into_tail; try assumption.
  - apply (Hact Hg).
  - apply outside_false. exact Hout.
Qed.

Lemma C10_tail_cell_is_free_witness :
  exists s s',
    reachable rawAhead s /\ snake s = [mkPosition 11 10; mkPosition 10 10] /\
    direction s = "LEFT" /\
    onTick rawAhead 1 s = Ok s' /\ gameOver s' = false /\
    snake s' = [mkPosition 10 10; mkPosition 11 10].
Proof.
  pose (s := mkState [mkPosition 11 10; mkPosition 10 10] (mkPosition 12 10)
                     "LEFT" false 10 4%nat
                     [mkFrame [mkPosition 11 10; mkPosition 10 10] (mkPosition 12 10) 10 false]).
  assert (Hr : reachable rawAhead s).
  { apply runGame_reachable with (fuel := 1%nat) (evs := [Tick; Key "UP"; Key "LEFT"]).
    vm_compute. reflexivity. }
  destruct (C10_tail_cell_is_free rawAhead 1 s Hr) as [s' [H1 [H2 H3]]].
  - reflexivity.
  - simpl. lia.
  - vm_compute. reflexivity.
  - vm_compute. discriminate.
  - vm_compute. reflexivity.
  - exists s, s'. repeat split; assumption.
Defined.

(** ** C4 *)

(** C4, as the code has it.  [oneCellLeft] is the state of a game in which
    the food always came up on the next cell of a tour of the board and the
    player followed the tour: 499 segments, [gameOver] unset, the food on
    the last free cell and the head about to move onto it.  The tick that
    eats it never returns, whatever the generator and however many rounds
    [placeFood] is given: no new food is placed. *)
Lemma C4_board_filling_tick_never_returns :
  reachable rawTour oneCellLeft /\
  gameOver oneCellLeft = false /\
  List.length (snake oneCellLeft) = 499%nat /\
  newHeadOf oneCellLeft = food oneCellLeft /\
  ~ (exists (raw : nat -> Z) (fuel : nat) (s' : State),
       onTick raw fuel oneCellLeft = Ok s').
Proof.
  destruct oneCellLeft_facts as [Hg [Hlen Hf]].
  split; [exact oneCellLeft_reachable|].
  split; [exact Hg|]. split; [exact Hlen|]. split; [exact Hf|].
  intros [raw [fuel [s' H]]].
  destruct (reachable_eat rawTour oneCellLeft oneCellLeft_reachable Hg Hf) as [_ [_ Hfull]].
  rewrite Hfull in H; [discriminate H|].
  rewrite Hlen. reflexivity.
Qed.

(** C4, amended.  In a state the loop can be waiting in, on a tick whose
    new head is on the food, [move] has added exactly 10 to [score] and put
    the new head in front of all the old segments (one segment more) when
    it calls [placeFood].  The tick returns exactly when one of the
    positions [placeFood] draws is free, and then the food is on a cell of
    the board that is not on the grown snake.  Such a cell exists as long
    as the grown snake does not fill the board; when it does, the tick
    never returns and no food is placed.  From the body (5,5),(4,5),(3,5)
    heading right onto food at (6,5) the body becomes
    (6,5),(5,5),(4,5),(3,5): four segments, head (6,5). *)
Theorem C4_eating_grows (raw : nat -> Z) :
  (forall s, reachable raw s -> gameOver s = false -> newHeadOf s = food s ->
     (forall fuel, move raw fuel s = placeFood raw fuel (grown s)) /\
     score (grown s) = score s + 10 /\
     snake (grown s) = newHeadOf s :: snake s /\
     (forall fuel s', onTick raw fuel s = Ok s' ->
        score s' = score s + 10 /\
        snake s' = newHeadOf s :: snake s /\
        List.length (snake s') = S (List.length (snake s)) /\
        inBounds (food s') /\ ~ In (food s') (snake s')) /\
     (forall fuel,
        (exists s', onTick raw fuel s = Ok s') <->
        (exists k, (k < fuel)%nat /\
           ~ In (sampleAt raw (randCalls s + 2 * k)) (newHeadOf s :: snake s))) /\
     ((S (List.length (snake s)) < cellCount)%nat ->
        exists p, inBounds p /\ ~ In p (newHeadOf s :: snake s)) /\
     ((S (List.length (snake s)) = cellCount)%nat ->
        forall raw' fuel, onTick raw' fuel s = Diverge)) /\
  (newHeadOf scenario2 = food scenario2 /\
   forall fuel s', onTick raw fuel scenario2 = Ok s' ->
     snake s' = [mkPosition 6 5; mkPosition 5 5; mkPosition 4 5; mkPosition 3 5] /\
     List.length (snake s') = 4%nat /\
     hd_error (snake s') = Some (mkPosition 6 5) /\
     score s' = score scenario2 + 10 /\
     ~ In (food s') (snake s')).
Proof.
  split.
  - intros s Hr Hg Hf. pose proof (reachable_Inv raw s Hr) as HI.
    assert (Hw : wrap (score s + 10) = score s + 10).
    { pose proof (active_length s HI Hg) as Hl.
      apply wrap_id. unfold in_range, int_min, int_max. rewrite (inv_score _ HI).
      unfold cellCount, width, height in Hl. simpl in Hl. lia. }
    split; [intros fuel; apply move_eat; [apply (inv_body _ HI) | exact Hf]|].
    split; [fields; exact Hw|]. split; [reflexivity|].
    split.
    + intros fuel s' H.
      destruct (onTick_eat_Ok raw fuel s s' Hg (inv_body _ HI) Hf H) as [k [_ [-> Hfree]]].
      destruct (Inv_eat raw k s HI Hg Hf) as [_ [-> _]].
      * apply validPosition_true. exact Hfree.
      * fields. rewrite Hw.
        split; [reflexivity|]. split; [reflexivity|]. split; [reflexivity|].
        split; [apply sampleAt_inBounds | exact Hfree].
    + apply (reachable_eat raw s Hr Hg Hf).
  - split; [reflexivity|]. intros fuel s' H.
    destruct (onTick_eat_Ok raw fuel scenario2 s' eq_refl ltac:(discriminate) eq_refl H)
      as [k [_ [-> Hfree]]].
    assert (C : collides (snake (placedAfter raw k (grown scenario2))) = false)
      by reflexivity.
    unfold flagCollision. rewrite C. fields.
    split; [reflexivity|]. split; [reflexivity|]. split; [reflexivity|].
    split; [reflexivity | exact Hfree].
Qed.

(** The first tick of a game whose first food lies right in front of the
    snake. *)
Lemma C4_eating_grows_witness :
  exists s s',
    reachable rawAhead s /\ gameOver s = false /\ newHeadOf s = food s /\
    onTick rawAhead 1 s = Ok s' /\
    score s' = score s + 10 /\ snake s' = newHeadOf s :: snake s.
Proof.
  pose (s := mkState [mkPosition 10 10] (mkPosition 11 10) "RIGHT" false 0 2%nat []).
  assert (Hr : reachable rawAhead s).
  { apply runGame_reachable with (fuel := 1%nat) (evs := []). vm_compute. reflexivity. }
  destruct (proj1 (C4_eating_grows rawAhead) s Hr eq_refl eq_refl)
    as [_ [_ [_ [H1 [H2 _]]]]].
  destruct (proj2 (H2 1%nat)) as [s' H].
  - exists 0%nat. split; [lia|].
    vm_compute. intros [E|[E|[]]]; discriminate E.
  - exists s, s'. destruct (H1 1%nat s' H) as [G1 [G2 _]].
    repeat split; assumption.
Defined.

(** ** C5 *)

Lemma onEdge_outside (p : Position) : onEdge p -> outside p = true.
Proof.
  intros H. apply outside_true. unfold onEdge, inBounds, width, height in *. lia.
Qed.

(** C5.  A tick whose new head is one cell off the board (x = -1,
    x = width, y = -1 or y = height) sets [gameOver] in that same tick, and
    the snake it leaves has that head in front: [move] has rewritten the
    body before [checkCollisions] looks at it.  The tick returns with the
    old body shifted by one cell when the new head is off the food, which
    is always so in a state the loop can be waiting in.  From the body
    (0,5),(1,5) heading left the tick leaves (-1,5),(0,5) with [gameOver]
    set, and no later tick changes anything. *)
Theorem C5_wall_ends_game (raw : nat -> Z) (fuel : nat) :
  (forall s, gameOver s = false -> snake s <> [] -> onEdge (newHeadOf s) ->
     (forall s', onTick raw fuel s = Ok s' ->
        gameOver s' = true /\ hd_error (snake s') = Some (newHeadOf s)) /\
     (newHeadOf s <> food s ->
        exists s', onTick raw fuel s = Ok s' /\ gameOver s' = true /\
                   snake s' = newHeadOf s :: removelast (snake s)) /\
     (reachable raw s -> newHeadOf s <> food s)) /\
  (exists s', onTick raw fuel scenario3 = Ok s' /\
     snake s' = [mkPosition (-1) 5; mkPosition 0 5] /\ gameOver s' = true /\
     forall n, gameLoop raw fuel (repeat Tick n) s' = Ok s').
Proof.
  split.
  - intros s Hg Hs He. pose proof (onEdge_outside _ He) as Hout.
    assert (Hslide : newHeadOf s <> food s ->
              onTick raw fuel s = Ok (draw (set_gameOver true (slid s)))).
    { intros Hf. rewrite onTick_slide by assumption.
      unfold flagCollision. fields. unfold collides. rewrite Hout. reflexivity. }
    split; [|split].
    + intros s' H. destruct (samePos (newHeadOf s) (food s)) eqn:E.
      * apply samePos_true in E.
        destruct (onTick_eat_Ok raw fuel s s' Hg Hs E H) as [k [_ [-> _]]].
        unfold flagCollision. fields. unfold collides. rewrite Hout.
        split; reflexivity.
      * apply samePos_false in E. rewrite (Hslide E) in H.
        injection H as <-. split; reflexivity.
    + intros Hf. rewrite (Hslide Hf). eexists. repeat split.
    + intros Hr E. apply reachable_Inv in Hr.
      pose proof (inv_food_in _ Hr) as Hin. rewrite <- E in Hin.
      apply outside_false in Hin. congruence.
  - rewrite onTick_slide by (reflexivity || discriminate).
    eexists. split; [reflexivity|]. split; [reflexivity|]. split; [reflexivity|].
    apply ticks_over. reflexivity.
Qed.

Lemma C5_wall_ends_game_witness :
  onEdge (newHeadOf scenario3) /\
  exists s', onTick rawZero 1 scenario3 = Ok s' /\ gameOver s' = true /\
             snake s' = [mkPosition (-1) 5; mkPosition 0 5].
Proof.
  assert (He : onEdge (newHeadOf scenario3)) by (left; reflexivity).
  split; [exact He|].
  destruct (proj1 (C5_wall_ends_game rawZero 1) scenario3 eq_refl
              ltac:(discriminate) He) as [_ [H _]].
  destruct H as [s' [H1 [H2 H3]]].
  - vm_compute. discriminate.
  - exists s'. repeat split; assumption.
Defined.

(** ** C2 *)

(** C2, on the code.  A game in which the snake has eaten twice moves
    right with the body (12,10),(11,10),(10,10).  The keys Up and Left
    arrive before the next tick: [direction] goes from RIGHT to UP to LEFT,
    the exact opposite of the heading of the last tick, and the next tick
    moves the head back onto (11,10), its own second segment, which ends
    the game. *)
Theorem C2_two_keys_reverse_the_snake :
  exists s2 s4 s5,
    runGame rawAhead 1 [Tick; Tick] = Ok s2 /\
    direction s2 = "RIGHT" /\ gameOver s2 = false /\
    snake s2 = [mkPosition 12 10; mkPosition 11 10; mkPosition 10 10] /\
    gameLoop rawAhead 1 [Key "UP"; Key "LEFT"] s2 = Ok s4 /\
    direction s4 = "LEFT" /\
    onTick rawAhead 1 s4 = Ok s5 /\
    snake s5 = [mkPosition 11 10; mkPosition 12 10; mkPosition 11 10] /\
    gameOver s5 = true.
Proof.
  do 3 eexists.
  split; [vm_compute; reflexivity|].
  split; [reflexivity|]. split; [reflexivity|]. split; [reflexivity|].
  split; [vm_compute; reflexivity|].
  split; [reflexivity|].
  split; [vm_compute; reflexivity|].
  split; reflexivity.
Qed.

(** * Further properties of the game *)

(** ** Headings *)

Ltac heading H :=
  destruct H as [-> | [-> | [-> | ->]]];
  unfold advanceHead; cbn [String.eqb Ascii.eqb Bool.eqb].

Lemma wrap_near (z : Z) : -2 <= z <= 100 -> wrap z = z.
Proof.
  intros H. apply wrap_id. unfold in_range, int_min, int_max. lia.
Qed.

Lemma inBounds_nearBoard (p : Position) : inBounds p -> nearBoard p.
Proof. unfold inBounds, nearBoard, width, height. lia. Qed.

Lemma advanceHead_step (d : string) (h : Position) :
  validDirection d -> inBounds h ->
  adjacent (advanceHead d h) h /\ nearBoard (advanceHead d h).
Proof.
  intros Hd Hh. unfold inBounds, width, height in Hh.
  heading Hd; rewrite wrap_near by lia;
    unfold adjacent, nearBoard, width, height; cbn [X Y]; lia.
Qed.

Lemma handleInput_dir (key : string) (s : State) :
  validDirection (direction s) -> validDirection (direction (handleInput key s)).
Proof.
  intros Hd. unfold handleInput, validDirection.
  repeat match goal with
         | |- context [String.eqb key ?k] =>
             destruct (String.eqb_spec key k) as [->|?]
         end;
    try match goal with |- context [negb ?b] => destruct (negb b) end;
    fields; auto.
Qed.

Lemma handleInput_unknown (key : string) (s : State) :
  ~ validDirection key -> handleInput key s = s.
Proof.
  intros Hk. unfold handleInput, validDirection in *.
  repeat match goal with
         | |- context [String.eqb key ?k] =>
             destruct (String.eqb_spec key k) as [->|?]
         end; tauto.
Qed.

Lemma handleInput_snapshot (key : string) (s : State) :
  snapshot (handleInput key s) = snapshot s.
Proof. destruct (handleInput_cases key s) as [-> | ->]; reflexivity. Qed.

(** ** Shape of the body *)

Lemma chained_removelast (body : list Position) :
  chained body -> chained (removelast body).
Proof.
  induction body as [|a body IH]; [auto|].
  destruct body as [|b [|c body]]; cbn [chained removelast] in *; tauto.
Qed.

Lemma chained_slide (a h : Position) (t : list Position) :
  adjacent a h -> chained (h :: t) -> chained (a :: removelast (h :: t)).
Proof.
  intros Ha Hc. destruct t as [|b t]; [exact I|].
  pose proof (chained_removelast _ Hc) as Hr.
  cbn [removelast] in *. cbn [chained]. split; assumption.
Qed.

Lemma frames_all_clear (s : State) :
  Shape s -> gameOver s = false ->
  Forall (fun f => f_gameOver f = false) (frames s).
Proof.
  intros Hs Hg. pose proof (shape_overlay _ Hs) as Ho.
  destruct (shape_current _ Hs) as [E | [older E]].
  - rewrite E. constructor.
  - rewrite E in *. rewrite removelast_last in Ho.
    apply Forall_app. split; [exact Ho|]. constructor; [exact Hg | constructor].
Qed.

Section ShapeInvariant.

Variable raw : nat -> Z.

Lemma placeFood_no_panic (fuel : nat) :
  forall s, placeFood raw fuel s <> Panic.
Proof.
  induction fuel as [|fuel IH]; intros s.
  - discriminate.
  - rewrite placeFood_step. cbv zeta.
    destruct (validPosition _ _); [discriminate | apply IH].
Qed.

Lemma Shape_init (fuel : nat) (s : State) :
  initializeGame raw fuel boot = Ok s -> Shape s.
Proof.
  unfold initializeGame. intros H.
  apply placeFood_Ok in H. destruct H as [k [_ [-> _]]].
  constructor; fields.
  - right; right; right. reflexivity.
  - exact I.
  - constructor.
  - constructor; [|constructor]. apply inBounds_nearBoard.
    unfold inBounds, width, height; cbn [X Y].
    change (25 / 2 - 2) with 10. change (20 / 2) with 10. lia.
  - unfold cellCount, width, height. cbn. lia.
  - left. reflexivity.
  - constructor.
  - discriminate.
Qed.

Lemma Shape_input (key : string) (s : State) : Shape s -> Shape (handleInput key s).
Proof.
  intros [H1 H2 H3 H4 H5 H6 H7 H8].
  destruct (handleInput_fields key s) as [E1 [E2 [E3 [E4 [E5 E6]]]]].
  constructor; rewrite ?E1, ?E3, ?E6, ?handleInput_snapshot; try assumption.
  apply handleInput_dir. exact H1.
Qed.

Lemma Shape_painted (s x : State) :
  Shape s -> gameOver s = false ->
  validDirection (direction x) -> chained (snake x) ->
  Forall inBounds (tl (snake x)) -> Forall nearBoard (snake x) ->
  (List.length (snake x) < cellCount)%nat ->
  frames x = frames s ->
  Shape (draw x).
Proof.
  intros Hs Hg H1 H2 H3 H4 H5 Hf.
  constructor; fields; try assumption.
  - right. exists (frames x). reflexivity.
  - rewrite removelast_last. rewrite Hf. apply frames_all_clear; assumption.
  - intros _ E. apply app_eq_nil in E. destruct E as [_ E]. discriminate E.
Qed.

Lemma Shape_tick (fuel : nat) (s s' : State) :
  Inv s -> Shape s -> onTick raw fuel s = Ok s' -> Shape s'.
Proof.
  intros HI HS H.
  destruct (gameOver s) eqn:Hg.
  { rewrite onTick_over in H by exact Hg. injection H as <-. exact HS. }
  pose proof (inv_body _ HI) as Hb.
  destruct (inv_active _ HI Hg) as [Hnd Hall].
  destruct (snake s) as [|h t] eqn:Es; [congruence|].
  assert (Hh : inBounds h) by (inversion Hall; assumption).
  assert (Hnh : newHeadOf s = advanceHead (direction s) h)
    by (unfold newHeadOf; rewrite Es; reflexivity).
  destruct (advanceHead_step (direction s) h (shape_dir _ HS) Hh) as [Hadj Hnear].
  rewrite <- Hnh in Hadj, Hnear.
  pose proof (shape_chain _ HS) as Hc. rewrite Es in Hc.
  pose proof (shape_length _ HS) as Hl. rewrite Es in Hl.
  assert (Hnb : Forall nearBoard (h :: t)).
  { rewrite Forall_forall in *. intros p Hp. apply inBounds_nearBoard. auto. }
  destruct (samePos (newHeadOf s) (food s)) eqn:E.
  - apply samePos_true in E.
    assert (Hb' : snake s <> []) by (rewrite Es; discriminate).
    destruct (onTick_eat_Ok raw fuel s s' Hg Hb' E H) as [k [_ [-> Hfree]]].
    destruct (Inv_eat raw k s HI Hg E) as [HI' [Hflag _]].
    { apply validPosition_true. exact Hfree. }
    rewrite Hflag in *.
    apply (Shape_painted s); try assumption; fields; rewrite ?Es.
    + apply (shape_dir _ HS).
    + split; [exact Hadj | exact Hc].
    + cbn [tl]. exact Hall.
    + constructor; [exact Hnear | exact Hnb].
    + pose proof (active_length _ HI' Hg) as L. fields. rewrite Es in L. exact L.
    + reflexivity.
  - apply samePos_false in E.
    rewrite onTick_slide in H by (try assumption; rewrite Es; discriminate).
    injection H as <-.
    destruct (flagCollision_fields (slid s)) as [F1 [_ [_ [F4 [_ [F6 _]]]]]].
    apply (Shape_painted s); try assumption; rewrite ?F1, ?F4, ?F6; fields; rewrite ?Es.
    + apply (shape_dir _ HS).
    + apply chained_slide; [exact Hadj | exact Hc].
    + cbn [tl]. apply removelast_Forall. exact Hall.
    + constructor; [exact Hnear|]. apply removelast_Forall. exact Hnb.
    + pose proof (removelast_length (h :: t) ltac:(discriminate)) as R.
      fields. lia.
Qed.

Lemma reachable_Shape (s : State) : reachable raw s -> Shape s.
Proof.
  induction 1 as [fuel s H | fuel ev s s' Hr IH H].
  - eapply Shape_init; eassumption.
  - destruct ev as [|key|]; cbn [cycle] in H.
    + eapply Shape_tick; [apply (reachable_Inv raw); exact Hr | exact IH | exact H].
    + injection H as <-. apply Shape_input. exact IH.
    + injection H as <-. exact IH.
Qed.

End ShapeInvariant.

(** ** Score and length *)

(** X1.  Whenever the loop waits for an event the score is ten times the
    number of segments grown so far, the snake has fewer segments than the
    board has cells (the board is never full), and so the score lies
    between 0 and 4980. *)
Theorem X1_score_tracks_length (raw : nat -> Z) (s : State) :
  reachable raw s ->
  score s = 10 * (Z.of_nat (List.length (snake s)) - 1) /\
  (List.length (snake s) < cellCount)%nat /\
  0 <= score s <= 4980.
Proof.
  intros Hr. pose proof (reachable_Inv raw s Hr) as HI.
  pose proof (reachable_Shape raw s Hr) as HS.
  pose proof (inv_score _ HI) as Hsc. pose proof (shape_length _ HS) as Hl.
  pose proof (inv_body _ HI) as Hb.
  split; [exact Hsc|]. split; [exact Hl|].
  unfold cellCount, width, height in Hl. simpl in Hl.
  destruct (snake s); [congruence|]. simpl List.length in *. lia.
Qed.

Lemma X1_score_tracks_length_witness :
  reachable rawAhead fedTwice /\ score fedTwice = 20 /\
  List.length (snake fedTwice) = 3%nat.
Proof.
  split; [exact fedTwice_reachable|].
  destruct (X1_score_tracks_length rawAhead fedTwice fedTwice_reachable) as [H _].
  split; [rewrite H |]; reflexivity.
Defined.

(** X2.  One iteration of the loop either leaves the score and the number
    of segments as they are, or it is a tick taken with [gameOver] unset
    whose new head is on the food, and then the score goes up by exactly 10
    and the new head is added in front of the whole body. *)
Theorem X2_score_changes_only_by_eating
  (raw : nat -> Z) (fuel : nat) (ev : Event) (s s' : State) :
  reachable raw s -> cycle raw fuel ev s = Ok s' ->
  (score s' = score s /\ List.length (snake s') = List.length (snake s)) \/
  (ev = Tick /\ gameOver s = false /\ newHeadOf s = food s /\
   score s' = score s + 10 /\ snake s' = newHeadOf s :: snake s).
Proof.
  intros Hr H. pose proof (reachable_Inv raw s Hr) as HI.
  destruct ev as [|key|]; cbn [cycle] in H.
  - destruct (gameOver s) eqn:Hg.
    { rewrite onTick_over in H by exact Hg. injection H as <-. left. split; reflexivity. }
    pose proof (inv_body _ HI) as Hb.
    destruct (samePos (newHeadOf s) (food s)) eqn:E.
    + apply samePos_true in E. right.
      destruct (onTick_eat_Ok raw fuel s s' Hg Hb E H) as [k [_ [-> Hfree]]].
      destruct (Inv_eat raw k s HI Hg E) as [_ [-> Hw]].
      { apply validPosition_true. exact Hfree. }
      fields. rewrite Hw. repeat split; assumption.
    + apply samePos_false in E. left.
      rewrite onTick_slide in H by assumption. injection H as <-.
      destruct (flagCollision_fields (slid s)) as [F1 [_ [F3 _]]].
      fields. rewrite F1, F3. fields.
      pose proof (removelast_length (snake s) Hb). split; [reflexivity | lia].
  - injection H as <-. destruct (handleInput_fields key s) as [E1 [_ [_ [E4 _]]]].
    left. rewrite E1, E4. split; reflexivity.
  - injection H as <-. left. split; reflexivity.
Qed.

Lemma X2_score_changes_only_by_eating_witness :
  reachable rawZero justStarted /\
  exists s', cycle rawZero 1 Tick justStarted = Ok s' /\ score s' = score justStarted.
Proof.
  split; [exact justStarted_reachable|].
  eexists. split; [vm_compute; reflexivity|].
  destruct (X2_score_changes_only_by_eating rawZero 1 Tick justStarted _
              justStarted_reachable eq_refl) as [[H _] | [_ [_ [H _]]]].
  - exact H.
  - vm_compute in H. discriminate H.
Defined.

(** X3.  In a state the loop can be waiting in no event makes the program
    panic: [snake[0]] is never out of range.  Keys, quit, ticks taken after
    the game is over and ticks whose new head is off the food always
    return; only a tick that eats can keep [placeFood] looping. *)
Theorem X3_loop_never_panics
  (raw : nat -> Z) (fuel : nat) (ev : Event) (s : State) :
  reachable raw s ->
  cycle raw fuel ev s <> Panic /\
  (ev <> Tick \/ gameOver s = true \/ newHeadOf s <> food s ->
   exists s', cycle raw fuel ev s = Ok s').
Proof.
  intros Hr. pose proof (reachable_Inv raw s Hr) as HI.
  pose proof (inv_body _ HI) as Hb.
  destruct ev as [|key|]; cbn [cycle].
  - destruct (gameOver s) eqn:Hg.
    { rewrite onTick_over by exact Hg. split; [discriminate | eauto]. }
    destruct (samePos (newHeadOf s) (food s)) eqn:E.
    + apply samePos_true in E. rewrite onTick_eat by assumption. split.
      * destruct (placeFood raw fuel (grown s)) as [s1| |] eqn:P; cbn [bind];
          try discriminate.
        exfalso. apply (placeFood_no_panic raw fuel (grown s)). exact P.
      * intros [H | [H | H]]; congruence.
    + apply samePos_false in E. rewrite onTick_slide by assumption.
      split; [discriminate | eauto].
  - split; [discriminate | eauto].
  - split; [discriminate | eauto].
Qed.

Lemma X3_loop_never_panics_witness :
  reachable rawAhead fedTwice /\
  exists s', cycle rawAhead 0 Tick fedTwice = Ok s'.
Proof.
  split; [exact fedTwice_reachable|].
  apply (proj2 (X3_loop_never_panics rawAhead 0 Tick fedTwice fedTwice_reachable)).
  right; right. vm_compute. discriminate.
Defined.

(** ** Heading *)

(** X4.  [direction] always holds one of the four names UP, DOWN, LEFT,
    RIGHT, whatever strings arrive on the input channel: a key that is not
    one of the four names changes nothing at all. *)
Theorem X4_direction_stays_valid (raw : nat -> Z) (s : State) :
  reachable raw s ->
  validDirection (direction s) /\
  forall key, ~ validDirection key -> cycle raw 0 (Key key) s = Ok s.
Proof.
  intros Hr. split.
  - apply (shape_dir _ (reachable_Shape raw s Hr)).
  - intros key Hk. cbn [cycle]. rewrite handleInput_unknown by exact Hk. reflexivity.
Qed.

Lemma X4_direction_stays_valid_witness :
  reachable rawAhead fedTwice /\
  cycle rawAhead 0 (Key "up") fedTwice = Ok fedTwice.
Proof.
  split; [exact fedTwice_reachable|].
  apply (proj2 (X4_direction_stays_valid rawAhead fedTwice fedTwice_reachable)).
  unfold validDirection. intros [H|[H|[H|H]]]; discriminate H.
Defined.

(** When the head has just moved one cell along [direction] from the
    segment behind it, no single key turns the snake back onto that
    segment. *)
Lemma one_key_keeps_off_neck
  (key : string) (s : State) (neck : Position) (rest : list Position) :
  validDirection (direction s) -> inBounds neck ->
  snake s = advanceHead (direction s) neck :: neck :: rest ->
  newHeadOf (handleInput key s) <> neck.
Proof.
  intros Hd Hn Hs. unfold newHeadOf.
  destruct (handleInput_fields key s) as [E1 _]. rewrite E1, Hs. cbn [hd].
  unfold inBounds, width, height in Hn. destruct neck as [x y]; cbn [X Y] in *.
  assert (Hcases : handleInput key s = s \/
                   (handleInput key s = set_direction key s /\ validDirection key /\
                    ((key = "UP" /\ direction s <> "DOWN") \/
                     (key = "DOWN" /\ direction s <> "UP") \/
                     (key = "LEFT" /\ direction s <> "RIGHT") \/
                     (key = "RIGHT" /\ direction s <> "LEFT")))).
  { unfold handleInput, validDirection.
    repeat match goal with
           | |- context [String.eqb key ?k] =>
               destruct (String.eqb_spec key k) as [->|?]
           end; auto;
      match goal with
      | |- context [String.eqb (direction s) ?k] =>
          destruct (String.eqb_spec (direction s) k) as [E|E]
      end; cbn [negb]; auto; right; (split; [reflexivity|]); tauto. }
  destruct Hcases as [-> | [-> [Hk Hopp]]].
  - heading Hd; cbn [X Y]; rewrite !wrap_near by (rewrite ?wrap_near; lia);
      intros E; injection E; lia.
  - cbn [direction set_direction].
    destruct Hopp as [[-> Hne] | [[-> Hne] | [[-> Hne] | [-> Hne]]]];
      destruct Hd as [Ed | [Ed | [Ed | Ed]]]; rewrite Ed in *; try congruence;
      unfold advanceHead; cbn [String.eqb Ascii.eqb Bool.eqb X Y];
      rewrite !wrap_near by (rewrite ?wrap_near; lia);
      intros E; injection E; lia.
Qed.

Lemma tick_leaves_fresh_move (raw : nat -> Z) (fuel : nat) (s s' : State) :
  reachable raw s -> gameOver s = false -> onTick raw fuel s = Ok s' ->
  direction s' = direction s /\
  exists h, hd_error (snake s) = Some h /\ inBounds h /\
    (snake s' = advanceHead (direction s) h :: snake s \/
     snake s' = advanceHead (direction s) h :: removelast (snake s)).
Proof.
  intros Hr Hg H. pose proof (reachable_Inv raw s Hr) as HI.
  pose proof (inv_body _ HI) as Hb.
  destruct (inv_active _ HI Hg) as [_ Hall].
  assert (Hnh : exists h, hd_error (snake s) = Some h /\ inBounds h /\
                          newHeadOf s = advanceHead (direction s) h).
  { unfold newHeadOf. destruct (snake s) as [|h t]; [congruence|].
    exists h. inversion Hall. split; [reflexivity|]. split; [assumption | reflexivity]. }
  destruct Hnh as [h [Hh [Hin Hn]]].
  destruct (samePos (newHeadOf s) (food s)) eqn:E.
  - apply samePos_true in E.
    destruct (onTick_eat_Ok raw fuel s s' Hg Hb E H) as [k [_ [-> _]]].
    destruct (flagCollision_fields (placedAfter raw k (grown s))) as [F1 [_ [_ [F4 _]]]].
    fields. rewrite F1, F4. fields. split; [reflexivity|].
    exists h. rewrite <- Hn. auto.
  - apply samePos_false in E. rewrite onTick_slide in H by assumption.
    injection H as <-.
    destruct (flagCollision_fields (slid s)) as [F1 [_ [_ [F4 _]]]].
    fields. rewrite F1, F4. fields. split; [reflexivity|].
    exists h. rewrite <- Hn. auto.
Qed.

(** X5.  With at most one key between two ticks the snake cannot reverse:
    after a tick taken with [gameOver] unset, whatever single key arrives,
    the head the next tick would compute is not the second segment of the
    body. *)
Theorem X5_one_key_cannot_reverse
  (raw : nat -> Z) (fuel : nat) (key : string) (s s' : State) (neck : Position) :
  reachable raw s -> gameOver s = false -> onTick raw fuel s = Ok s' ->
  nth_error (snake s') 1 = Some neck ->
  newHeadOf (handleInput key s') <> neck.
Proof.
  intros Hr Hg H Hneck.
  pose proof (shape_dir _ (reachable_Shape raw s Hr)) as Hd.
  destruct (tick_leaves_fresh_move raw fuel s s' Hr Hg H) as [Ed [h [Hh [Hin Hs']]]].
  rewrite <- Ed in Hd, Hs'.
  destruct (snake s) as [|h0 t] eqn:Es; [discriminate Hh|].
  injection Hh as ->.
  destruct Hs' as [Hs' | Hs'].
  - rewrite Hs' in Hneck. injection Hneck as <-.
    eapply one_key_keeps_off_neck; eassumption.
  - destruct t as [|b t].
    + rewrite Hs' in Hneck. discriminate Hneck.
    + cbn [removelast] in Hs'. rewrite Hs' in Hneck. injection Hneck as <-.
      eapply one_key_keeps_off_neck; eassumption.
Qed.

Lemma X5_one_key_cannot_reverse_witness :
  exists s',
    reachable rawAhead fedTwice /\ onTick rawAhead 1 fedTwice = Ok s' /\
    newHeadOf (handleInput "LEFT" s') <> mkPosition 12 10.
Proof.
  eexists. split; [exact fedTwice_reachable|].
  split; [vm_compute; reflexivity|].
  eapply (X5_one_key_cannot_reverse rawAhead 1 "LEFT" fedTwice).
  - exact fedTwice_reachable.
  - reflexivity.
  - vm_compute. reflexivity.
  - reflexivity.
Defined.

(** ** When a game ends *)

(** X6.  A tick taken with [gameOver] unset ends the game exactly when the
    new head is outside the walls or on a segment other than the last one
    (which the same tick moves away); a tick that eats never ends it. *)
Theorem X6_tick_ends_game_iff
  (raw : nat -> Z) (fuel : nat) (s s' : State) :
  reachable raw s -> gameOver s = false -> onTick raw fuel s = Ok s' ->
  (gameOver s' = true <->
   outside (newHeadOf s) = true \/ In (newHeadOf s) (removelast (snake s))) /\
  (newHeadOf s = food s -> gameOver s' = false).
Proof.
  intros Hr Hg H. pose proof (reachable_Inv raw s Hr) as HI.
  pose proof (inv_body _ HI) as Hb.
  destruct (samePos (newHeadOf s) (food s)) eqn:E.
  - apply samePos_true in E.
    destruct (onTick_eat_Ok raw fuel s s' Hg Hb E H) as [k [_ [-> Hfree]]].
    destruct (Inv_eat raw k s HI Hg E) as [_ [-> _]].
    { apply validPosition_true. exact Hfree. }
    fields. split; [|intros _; exact Hg]. rewrite Hg. split; [discriminate|].
    intros [Ho | Hi].
    + rewrite E in Ho. pose proof (inv_food_in _ HI) as Hin.
      apply outside_false in Hin. congruence.
    + exfalso. apply (inv_food _ HI). rewrite <- E. apply removelast_In. exact Hi.
  - apply samePos_false in E. rewrite onTick_slide in H by assumption.
    injection H as <-. split; [|congruence].
    destruct (flagCollision_fields (slid s)) as [_ [_ [_ [_ [_ [_ F7]]]]]].
    fields. rewrite F7. fields. rewrite Hg. cbn [orb collides].
    rewrite orb_true_iff. split.
    + intros [Ho | Hx]; [left; exact Ho | right].
      destruct (existsb_exists (samePos (newHeadOf s)) (removelast (snake s))) as [Hex _].
      destruct (Hex Hx) as [q [Hq Hsame]]. apply samePos_true in Hsame. subst q. exact Hq.
    + intros [Ho | Hi]; [left; exact Ho | right].
      apply existsb_exists. exists (newHeadOf s). split; [exact Hi|].
      apply samePos_true. reflexivity.
Qed.

Lemma X6_tick_ends_game_iff_witness :
  exists s',
    reachable rawZero justStarted /\ onTick rawZero 0 justStarted = Ok s' /\
    (gameOver s' = true <->
     outside (newHeadOf justStarted) = true \/
     In (newHeadOf justStarted) (removelast (snake justStarted))).
Proof.
  pose (s' := mkState [mkPosition 11 10] (mkPosition 0 0) "RIGHT" false 0 2%nat
                      [mkFrame [mkPosition 11 10] (mkPosition 0 0) 0 false]).
  assert (H : onTick rawZero 0 justStarted = Ok s') by (vm_compute; reflexivity).
  exists s'. split; [exact justStarted_reachable|]. split; [exact H|].
  apply (X6_tick_ends_game_iff rawZero 0 justStarted s' justStarted_reachable eq_refl H).
Defined.

(** ** What is on screen *)

(** X7.  Once a frame has been painted, the last frame painted shows the
    snake, the food, the score and the game-over flag as the variables hold
    them: the screen never lags behind a key or a tick.  The game-over
    overlay is in no frame but the last, and it is in the last one whenever
    the game is over. *)
Theorem X7_screen_is_current (raw : nat -> Z) (s : State) :
  reachable raw s ->
  (frames s = [] \/ last (frames s) (snapshot boot) = snapshot s) /\
  Forall (fun f => f_gameOver f = false) (removelast (frames s)) /\
  (gameOver s = true ->
   frames s <> [] /\ f_gameOver (last (frames s) (snapshot boot)) = true).
Proof.
  intros Hr. pose proof (reachable_Shape raw s Hr) as HS.
  assert (Hc : frames s = [] \/ last (frames s) (snapshot boot) = snapshot s).
  { destruct (shape_current _ HS) as [E | [older E]]; [left; exact E | right].
    rewrite E. apply last_last. }
  split; [exact Hc|]. split; [apply (shape_overlay _ HS)|].
  intros Hg. pose proof (shape_over _ HS Hg) as Hne. split; [exact Hne|].
  destruct Hc as [E | E]; [congruence|]. rewrite E. exact Hg.
Qed.

Lemma X7_screen_is_current_witness :
  reachable rawZero ranIntoWall /\
  f_gameOver (last (frames ranIntoWall) (snapshot boot)) = true.
Proof.
  split; [exact ranIntoWall_reachable|].
  apply (X7_screen_is_current rawZero ranIntoWall ranIntoWall_reachable).
  vm_compute. reflexivity.
Defined.

(** ** Shape of the body on the board *)

(** X8.  Whenever the loop waits for an event the body is a path: every
    segment lies next to the following one, horizontally or vertically.
    Every segment but the head is on the board, the head is on the board or
    one cell off it, and it is on the board while [gameOver] is unset; the
    food is always on the board. *)
Theorem X8_body_is_a_path (raw : nat -> Z) (s : State) :
  reachable raw s ->
  chained (snake s) /\
  Forall inBounds (tl (snake s)) /\
  Forall nearBoard (snake s) /\
  (gameOver s = false -> Forall inBounds (snake s)) /\
  inBounds (food s).
Proof.
  intros Hr. pose proof (reachable_Inv raw s Hr) as HI.
  pose proof (reachable_Shape raw s Hr) as HS.
  split; [apply (shape_chain _ HS)|]. split; [apply (shape_tail _ HS)|].
  split; [apply (shape_head _ HS)|]. split; [|apply (inv_food_in _ HI)].
  intros Hg. apply (inv_active _ HI Hg).
Qed.

Lemma X8_body_is_a_path_witness :
  reachable rawAhead fedTwice /\ chained (snake fedTwice).
Proof.
  split; [exact fedTwice_reachable|].
  apply (X8_body_is_a_path rawAhead fedTwice fedTwice_reachable).
Defined.

(** ** Quitting *)

Lemma gameLoop_app (raw : nat -> Z) (fuel : nat) (evs1 evs2 : list Event) :
  forall s, ~ In Quit evs1 ->
  gameLoop raw fuel (evs1 ++ evs2) s =
  (s' <- gameLoop raw fuel evs1 s ;; gameLoop raw fuel evs2 s').
Proof.
  induction evs1 as [|ev evs1 IH]; intros s Hq.
  - reflexivity.
  - destruct ev as [|key|].
    + cbn [app gameLoop].
      destruct (cycle raw fuel Tick s) as [s1| |]; cbn [bind]; try reflexivity.
      apply IH. intros Hin. apply Hq. right. exact Hin.
    + cbn [app gameLoop cycle bind].
      apply IH. intros Hin. apply Hq. right. exact Hin.
    + exfalso. apply Hq. left. reflexivity.
Qed.

(** X9.  The loop handles events one after the other until the first quit
    signal, and returns there: running it over two lists of events in a row
    is running it over the first and then, from the state reached, over the
    second, and whatever follows a quit signal is never handled. *)
Theorem X9_loop_stops_at_quit
  (raw : nat -> Z) (fuel : nat) (evs1 evs2 : list Event) (s : State) :
  ~ In Quit evs1 ->
  gameLoop raw fuel (evs1 ++ evs2) s =
    (s' <- gameLoop raw fuel evs1 s ;; gameLoop raw fuel evs2 s') /\
  gameLoop raw fuel (evs1 ++ Quit :: evs2) s = gameLoop raw fuel evs1 s.
Proof.
  intros Hq. split; [apply gameLoop_app; exact Hq|].
  rewrite gameLoop_app by exact Hq.
  destruct (gameLoop raw fuel evs1 s); reflexivity.
Qed.

Lemma X9_loop_stops_at_quit_witness :
  gameLoop rawAhead 1 ([Tick; Key "UP"] ++ Quit :: [Tick; Tick]) fedTwice =
  gameLoop rawAhead 1 [Tick; Key "UP"] fedTwice.
Proof.
  apply (X9_loop_stops_at_quit rawAhead 1 [Tick; Key "UP"] [Tick; Tick] fedTwice).
  intros [H|[H|[]]]; discriminate H.
Defined.

(** ** Starting a game *)

(** X10.  Whatever the variables held before, a returning [initializeGame]
    leaves a one-segment snake at (10,10) heading right, score 0,
    [gameOver] unset and the food on a cell of the board other than
    (10,10); it paints nothing.  It returns as soon as the generator yields
    a cell other than (10,10). *)
Theorem X10_initializeGame_resets (raw : nat -> Z) (s0 : State) :
  (forall fuel s, initializeGame raw fuel s0 = Ok s ->
     snake s = [mkPosition 10 10] /\ direction s = "RIGHT" /\
     gameOver s = false /\ score s = 0 /\
     inBounds (food s) /\ food s <> mkPosition 10 10 /\
     frames s = frames s0) /\
  (forall k fuel, (k < fuel)%nat ->
     sampleAt raw (randCalls s0 + 2 * k) <> mkPosition 10 10 ->
     exists s, initializeGame raw fuel s0 = Ok s).
Proof.
  split.
  - intros fuel s H. unfold initializeGame in H.
    apply placeFood_Ok in H. destruct H as [k [_ [-> [Hv _]]]].
    fields. apply validPosition_true in Hv.
    split; [reflexivity|]. split; [reflexivity|]. split; [reflexivity|].
    split; [reflexivity|]. split; [apply sampleAt_inBounds|].
    split; [|reflexivity].
    intros E. apply Hv. left. symmetry. exact E.
  - intros k fuel Hk Hfree. unfold initializeGame.
    apply (placeFood_finds raw k); [exact Hk|].
    apply validPosition_true. fields. intros [E | []]. apply Hfree. symmetry. exact E.
Qed.

Lemma X10_initializeGame_resets_witness :
  exists s, initializeGame rawAhead 1 ranIntoWall = Ok s /\
            snake s = [mkPosition 10 10] /\ score s = 0.
Proof.
  destruct (X10_initializeGame_resets rawAhead ranIntoWall) as [H1 H2].
  destruct (H2 0%nat 1%nat) as [s H].
  - lia.
  - vm_compute. discriminate.
  - exists s. destruct (H1 1%nat s H) as [G1 [_ [_ [G4 _]]]]. auto.
Defined.

(** * The screen *)

(** ** The back buffer *)

Lemma screenAt_app (a b : list Cell) (x y : Z) :
  screenAt (a ++ b) x y =
  match screenAt b x y with
  | Some c => Some c
  | None => screenAt a x y
  end.
Proof.
  induction a as [|c a IH]; cbn [app screenAt].
  - destruct (screenAt b x y); reflexivity.
  - rewrite IH. destruct (screenAt b x y); reflexivity.
Qed.

Lemma screenAt_Some (cells : list Cell) (x y : Z) (c : Cell) :
  screenAt cells x y = Some c -> In c cells /\ c_x c = x /\ c_y c = y.
Proof.
  induction cells as [|d cells IH]; cbn [screenAt]; [discriminate|].
  destruct (screenAt cells x y) as [c'|].
  - intros E. injection E as <-. destruct (IH eq_refl) as [H1 H2].
    split; [right; exact H1 | exact H2].
  - destruct ((c_x d =? x) && (c_y d =? y)) eqn:B; [|discriminate].
    intros E. injection E as <-. apply andb_true_iff in B.
    rewrite !Z.eqb_eq in B. split; [left; reflexivity | exact B].
Qed.

Lemma screenAt_In (cells : list Cell) (c : Cell) :
  In c cells -> screenAt cells (c_x c) (c_y c) <> None.
Proof.
  induction cells as [|d cells IH]; cbn [screenAt In]; [tauto|].
  intros [-> | H].
  - destruct (screenAt cells (c_x c) (c_y c)); [discriminate|].
    rewrite !Z.eqb_refl. discriminate.
  - specialize (IH H). destruct (screenAt cells (c_x c) (c_y c)); [discriminate | congruence].
Qed.

Lemma screenAt_None (cells : list Cell) (x y : Z) :
  (forall c, In c cells -> c_x c = x -> c_y c = y -> False) ->
  screenAt cells x y = None.
Proof.
  intros H. destruct (screenAt cells x y) as [c|] eqn:E; [|reflexivity].
  apply screenAt_Some in E. destruct E as [H1 [H2 H3]]. exfalso. eauto.
Qed.

(** ** [drawBorder] *)

Lemma upto_In (n x : Z) : In x (upto n) <-> 0 <= x < n.
Proof.
  unfold upto. rewrite in_map_iff. split.
  - intros [k [<- Hk]]. apply in_seq in Hk. lia.
  - intros H. exists (Z.to_nat x). split; [lia|]. apply in_seq. lia.
Qed.

Lemma drawBorder_In (tb : Termbox) (c : Cell) :
  In c (drawBorder tb) <->
  c = mkCell (c_x c) (c_y c) borderChar (ColorBorder tb) (ColorDefault tb) /\
  onFrame (c_x c) (c_y c).
Proof.
  unfold drawBorder, onFrame. rewrite in_app_iff, !in_flat_map. split.
  - intros [[x [Hx Hc]] | [y [Hy Hc]]].
    + apply upto_In in Hx. unfold width, height in *.
      destruct Hc as [<- | [<- | []]]; cbn [c_x c_y]; split; try reflexivity; lia.
    + apply in_map_iff in Hy. destruct Hy as [i [<- Hi]]. apply upto_In in Hi.
      unfold width, height in *.
      destruct Hc as [<- | [<- | []]]; cbn [c_x c_y]; split; try reflexivity; lia.
  - intros [Hc [[Hx Hy] | [Hx Hy]]].
    + left. exists (c_x c). split; [apply upto_In; lia|].
      rewrite Hc at 1. cbn [In]. destruct Hy as [-> | ->]; auto.
    + right. exists (c_y c). split.
      * apply in_map_iff. exists (c_y c - 1). split; [lia|]. apply upto_In. lia.
      * rewrite Hc at 1. cbn [In]. destruct Hx as [-> | ->]; auto.
Qed.

(** ** [drawSnake] *)

Lemma drawSnakeFrom_In (tb : Termbox) (body : list Position) :
  forall i c, In c (drawSnakeFrom tb i body) ->
  c_ch c = snakeChar /\
  exists q, In q body /\ c_x c = wrap (X q + 1) /\ c_y c = wrap (Y q + 1).
Proof.
  induction body as [|pos body IH]; intros i c; cbn [drawSnakeFrom In]; [tauto|].
  intros [<- | H].
  - split; [reflexivity|]. exists pos. cbn [c_x c_y]. auto.
  - destruct (IH _ _ H) as [H1 [q [H2 H3]]]. split; [exact H1|]. exists q. auto.
Qed.

Lemma drawSnakeFrom_covers (tb : Termbox) (body : list Position) (q : Position) :
  forall i, In q body ->
  exists c, In c (drawSnakeFrom tb i body) /\
            c_x c = wrap (X q + 1) /\ c_y c = wrap (Y q + 1).
Proof.
  induction body as [|pos body IH]; intros i; cbn [drawSnakeFrom In]; [tauto|].
  intros [-> | H].
  - eexists. split; [left; reflexivity|]. split; reflexivity.
  - destruct (IH (S i) H) as [c [H1 H2]]. exists c. auto.
Qed.

(** ** Strings *)

Lemma append_length (a b : string) :
  String.length (a ++ b) = (String.length a + String.length b)%nat.
Proof.
  induction a as [|c a IH]; [reflexivity|].
  change (S (String.length (a ++ b)) = S (String.length a + String.length b)).
  rewrite IH. reflexivity.
Qed.

Lemma dropBytes_length (w : nat) :
  forall s, (w <= String.length s)%nat ->
  String.length (dropBytes w s) = (String.length s - w)%nat.
Proof.
  induction w as [|w IH]; intros [|a s] H; cbn [dropBytes String.length] in *; try lia.
  rewrite IH by lia. lia.
Qed.

Lemma decodeRune_width (a : ascii) (s : string) :
  (1 <= snd (decodeRune (String a s)) <= String.length (String a s))%nat.
Proof.
  unfold decodeRune.
  repeat match goal with
         | |- context [if ?b then _ else _] => destruct b
         | |- context [match ?t with EmptyString => _ | String _ _ => _ end] =>
             destruct t
         | |- context [match contByte ?x ?y ?z with Some _ => _ | None => _ end] =>
             destruct (contByte x y z)
         end; cbn [snd String.length]; lia.
Qed.

(** The offsets [range] yields lie within the string. *)
Lemma rangeFrom_offsets (fuel : nat) :
  forall i s p, In p (rangeFrom fuel i s) -> i <= fst p < i + len s.
Proof.
  unfold len. induction fuel as [|fuel IH]; intros i s p; cbn [rangeFrom];
    [cbn [In]; tauto|].
  destruct s as [|a s]; [cbn [In]; tauto|].
  pose proof (decodeRune_width a s) as Hw.
  destruct (decodeRune (String a s)) as [r w]. cbn [snd] in Hw.
  cbn [In]. intros [<- | H].
  - cbn [fst]. lia.
  - apply IH in H. rewrite dropBytes_length in H by lia. lia.
Qed.

(** ** [drawScore] and [drawGameOver] *)

Lemma drawScore_row (tb : Termbox) (sc : Z) (c : Cell) :
  In c (drawScore tb sc) -> c_y c = height + 3.
Proof.
  unfold drawScore. cbv zeta. rewrite in_app_iff, !in_map_iff.
  intros [[p [<- _]] | [p [<- _]]]; reflexivity.
Qed.

Lemma drawGameOverFrom_rows (tb : Termbox) (sc yStart : Z) (lines : list string) :
  forall i c, In c (drawGameOverFrom tb sc yStart i lines) ->
  exists j, (i <= j < i + List.length lines)%nat /\ c_y c = wrap (yStart + Z.of_nat j).
Proof.
  induction lines as [|line lines IH]; intros i c; cbn [drawGameOverFrom In]; [tauto|].
  cbv zeta. rewrite in_app_iff, in_map_iff. intros [[p [<- _]] | H].
  - exists i. cbn [c_y List.length]. split; [lia | reflexivity].
  - destruct (IH _ _ H) as [j [Hj Hy]]. exists j. cbn [List.length]. split; [lia | exact Hy].
Qed.

Lemma drawGameOver_rows (tb : Termbox) (sc : Z) (c : Cell) :
  In c (drawGameOver tb sc) -> 6 <= c_y c <= 12.
Proof.
  unfold drawGameOver. cbv zeta. intros H.
  apply drawGameOverFrom_rows in H. destruct H as [j [Hj ->]].
  change (Z.quot (height - Z.of_nat (List.length message)) 2) with 6.
  cbn [List.length message] in Hj. rewrite wrap_near by lia. lia.
Qed.

(** X11.  [drawBorder] paints the border rune, in the border colour, on
    exactly the cells of the frame around the board: the rows 0 and
    [height + 1] from column 0 to [width + 1], and the columns 0 and
    [width + 1] in between; no other cell, and no other rune or colour. *)
Theorem X11_drawBorder_paints_the_frame (tb : Termbox) (c : Cell) :
  In c (drawBorder tb) <->
  c = mkCell (c_x c) (c_y c) borderChar (ColorBorder tb) (ColorDefault tb) /\
  ((0 <= c_x c <= width + 1 /\ (c_y c = 0 \/ c_y c = height + 1)) \/
   ((c_x c = 0 \/ c_x c = width + 1) /\ 1 <= c_y c <= height)).
Proof. apply drawBorder_In. Qed.

(** ** What a frame shows of the board *)

Lemma screen_food (tb : Termbox) (fd p : Position) :
  inBounds fd ->
  screenAt (drawFood tb fd) (X p + 1) (Y p + 1) =
  if samePos p fd
  then Some (mkCell (X p + 1) (Y p + 1) foodChar (ColorFood tb) (ColorDefault tb))
  else None.
Proof.
  intros Hf. unfold inBounds, width, height in Hf.
  unfold drawFood. cbn [screenAt c_x c_y]. rewrite !wrap_near by lia.
  destruct (samePos p fd) eqn:E.
  - apply samePos_true in E. subst fd. rewrite !Z.eqb_refl. reflexivity.
  - destruct ((X fd + 1 =? X p + 1) && (Y fd + 1 =? Y p + 1)) eqn:B; [|reflexivity].
    apply andb_true_iff in B. rewrite !Z.eqb_eq in B.
    apply samePos_false in E. exfalso. apply E.
    destruct p, fd; cbn [X Y] in *. f_equal; lia.
Qed.

Lemma screen_snake (tb : Termbox) (body : list Position) (p : Position) :
  Forall nearBoard body -> nearBoard p ->
  match screenAt (drawSnake tb body) (X p + 1) (Y p + 1) with
  | Some c => c_ch c = snakeChar /\ existsb (samePos p) body = true
  | None => existsb (samePos p) body = false
  end.
Proof.
  intros Hb Hp. unfold drawSnake. rewrite Forall_forall in Hb.
  unfold nearBoard, width, height in *.
  destruct (screenAt (drawSnakeFrom tb 0 body) (X p + 1) (Y p + 1)) as [c|] eqn:E.
  - apply screenAt_Some in E. destruct E as [Hin [Hx Hy]].
    apply drawSnakeFrom_In in Hin. destruct Hin as [Hch [q [Hq [Hqx Hqy]]]].
    split; [exact Hch|]. apply existsb_exists. exists q. split; [exact Hq|].
    specialize (Hb q Hq). rewrite wrap_near in Hqx, Hqy by lia.
    apply samePos_true. destruct p, q; cbn [X Y] in *. f_equal; lia.
  - apply existsb_samePos_false. intros Hin.
    destruct (drawSnakeFrom_covers tb body p 0 Hin) as [c [Hc [Hx Hy]]].
    specialize (Hb p Hin). rewrite wrap_near in Hx, Hy by lia.
    apply (screenAt_In _ _ Hc). rewrite Hx, Hy. exact E.
Qed.

Lemma screen_border (tb : Termbox) (p : Position) :
  nearBoard p ->
  match screenAt (drawBorder tb) (X p + 1) (Y p + 1) with
  | Some c => c_ch c = borderChar /\ outside p = true
  | None => outside p = false
  end.
Proof.
  intros Hp. unfold nearBoard, width, height in Hp.
  destruct (screenAt (drawBorder tb) (X p + 1) (Y p + 1)) as [c|] eqn:E.
  - apply screenAt_Some in E. destruct E as [Hin [Hx Hy]].
    apply drawBorder_In in Hin. destruct Hin as [Hc Hf].
    split; [rewrite Hc; reflexivity|].
    apply outside_true. unfold onFrame, inBounds, width, height in *. lia.
  - apply outside_false. unfold inBounds, width, height.
    assert (Hn : ~ onFrame (X p + 1) (Y p + 1)).
    { intros Hf.
      pose (c := mkCell (X p + 1) (Y p + 1) borderChar (ColorBorder tb) (ColorDefault tb)).
      assert (Hin : In c (drawBorder tb)) by (apply drawBorder_In; split; [reflexivity | exact Hf]).
      apply (screenAt_In _ _ Hin). exact E. }
    unfold onFrame, width, height in Hn. lia.
Qed.

(** X12.  What the frame painted for a reachable state shows at a cell of
    the board or of the ring around it (screen column x + 1, row y + 1):
    the food rune on the food, else the snake rune on every cell of the
    snake, else the border rune on the ring and nothing on a free cell of
    the board.  So a head that has hit a wall is painted over the border.
    In the game-over frame this holds for the rows the game-over box does
    not reach (screen rows 6 to 12 are the box's). *)
Theorem X12_frame_shows_the_board
  (tb : Termbox) (raw : nat -> Z) (s : State) (p : Position) :
  reachable raw s -> nearBoard p ->
  gameOver s = false \/ ~ 6 <= Y p + 1 <= 12 ->
  option_map c_ch (screenAt (paint tb (snapshot s)) (X p + 1) (Y p + 1)) =
  if samePos p (food s) then Some foodChar
  else if existsb (samePos p) (snake s) then Some snakeChar
  else if outside p then Some borderChar
  else None.
Proof.
  intros Hr Hp Hrow.
  pose proof (reachable_Inv raw s Hr) as HI.
  pose proof (reachable_Shape raw s Hr) as HS.
  unfold paint, snapshot. cbn [f_snake f_food f_score f_gameOver].
  rewrite !screenAt_app.
  assert (G : screenAt (if gameOver s then drawGameOver tb (score s) else [])
                       (X p + 1) (Y p + 1) = None).
  { destruct (gameOver s); [|reflexivity]. apply screenAt_None.
    intros c Hc _ Hy. apply drawGameOver_rows in Hc.
    destruct Hrow as [Hg | Hrow]; [discriminate Hg | lia]. }
  assert (T : screenAt (drawScore tb (score s)) (X p + 1) (Y p + 1) = None).
  { apply screenAt_None. intros c Hc _ Hy. apply drawScore_row in Hc.
    unfold nearBoard, width, height in *. lia. }
  rewrite G, T, (screen_food tb _ p (inv_food_in _ HI)).
  destruct (samePos p (food s)); [reflexivity|].
  pose proof (screen_snake tb (snake s) p (shape_head _ HS) Hp) as Hs.
  destruct (screenAt (drawSnake tb (snake s)) (X p + 1) (Y p + 1)) as [c|].
  - cbn [option_map]. destruct Hs as [-> ->]. reflexivity.
  - rewrite Hs. pose proof (screen_border tb p Hp) as Hb.
    destruct (screenAt (drawBorder tb) (X p + 1) (Y p + 1)) as [c|].
    + cbn [option_map]. destruct Hb as [-> ->]. reflexivity.
    + rewrite Hb. reflexivity.
Qed.

Lemma ranIntoCeiling_reachable : reachable rawZero ranIntoCeiling.
Proof.
  apply runGame_reachable with (fuel := 1%nat) (evs := Key "UP" :: repeat Tick 11).
  vm_compute. reflexivity.
Qed.

(** The game that ran into the top wall: the head, at (10,-1), shows on
    the border row 0. *)
Lemma X12_frame_shows_the_board_witness :
  reachable rawZero ranIntoCeiling /\
  snake ranIntoCeiling = [mkPosition 10 (-1)] /\
  option_map c_ch
    (screenAt (paint sampleTermbox (snapshot ranIntoCeiling)) 11 0) = Some snakeChar.
Proof.
  split; [exact ranIntoCeiling_reachable|]. split; [vm_compute; reflexivity|].
  assert (E : (if samePos (mkPosition 10 (-1)) (food ranIntoCeiling)
               then Some foodChar
               else if existsb (samePos (mkPosition 10 (-1))) (snake ranIntoCeiling)
                    then Some snakeChar
                    else if outside (mkPosition 10 (-1)) then Some borderChar else None)
              = Some snakeChar) by (vm_compute; reflexivity).
  rewrite <- E.
  apply (X12_frame_shows_the_board sampleTermbox rawZero ranIntoCeiling
           (mkPosition 10 (-1)) ranIntoCeiling_reachable).
  - unfold nearBoard, width, height. cbn [X Y]. lia.
  - right. cbn [Y]. lia.
Defined.

(** ** The score line *)

Lemma itoa_short (z : Z) : 0 <= z <= 4980 -> (String.length (itoa z) <= 4)%nat.
Proof.
  intros Hz.
  assert (H : forallb (fun n => (String.length (itoa (Z.of_nat n)) <=? 4)%nat)
                      (seq 0 4981) = true) by (vm_compute; reflexivity).
  rewrite forallb_forall in H. specialize (H (Z.to_nat z)).
  rewrite Z2Nat.id in H by lia. apply Nat.leb_le. apply H. apply in_seq. lia.
Qed.

(** The cells of the two loops of [drawScore]: the constant head of the
    score text, its digits and closing space, and the instructions. *)
Lemma drawScore_parts (tb : Termbox) (sc : Z) :
  exists head digits tail,
    drawScore tb sc = ((head ++ digits) ++ tail)%list /\
    drawScore tb 0 = ((head ++ map (fun p => mkCell (wrap (fst p + 2)) (height + 3) (snd p)
                                       (ColorScore tb) (ColorBlue tb))
                                   (rangeFrom 2 8 "0 ")) ++ tail)%list /\
    digits = map (fun p => mkCell (wrap (fst p + 2)) (height + 3) (snd p)
                                  (ColorScore tb) (ColorBlue tb))
                 (rangeFrom (String.length (itoa sc ++ " ")) 8 (itoa sc ++ " ")) /\
    (forall x, 10 <= x <= 26 -> screenAt tail x (height + 3) <> None).
Proof.
  do 3 eexists. split; [|split; [|split]].
  - unfold drawScore. cbv zeta.
    change (Sprintf " SCORE: %d " sc) with (" SCORE: " ++ (itoa sc ++ " "))%string.
    change (rangeString (" SCORE: " ++ (itoa sc ++ " "))%string)
      with ([(0, 32); (1, 83); (2, 67); (3, 79); (4, 82); (5, 69); (6, 58); (7, 32)]
            ++ rangeFrom (String.length (itoa sc ++ " ")) 8 (itoa sc ++ " "))%list.
    rewrite map_app. reflexivity.
  - reflexivity.
  - reflexivity.
  - intros x Hx.
    assert (Hidx : map fst (rangeString instructions) = upto 17) by (vm_compute; reflexivity).
    assert (Hin : In (x - 10) (map fst (rangeString instructions))).
    { rewrite Hidx. apply upto_In. lia. }
    apply in_map_iff in Hin. destruct Hin as [p [Hp Hin]].
    pose (c := mkCell (wrap (width + 2 - len instructions + fst p)) (height + 3) (snd p)
                      (ColorText tb) (ColorBlue tb)).
    assert (Hc : In c (map (fun p => mkCell (wrap (width + 2 - len instructions + fst p))
                                            (height + 3) (snd p) (ColorText tb) (ColorBlue tb))
                           (rangeString instructions))).
    { apply in_map_iff. exists p. split; [reflexivity | exact Hin]. }
    apply screenAt_In in Hc. cbn [c c_x c_y] in Hc. rewrite Hp in Hc.
    change (len instructions) with 17 in Hc. unfold width in Hc.
    rewrite wrap_near in Hc by lia.
    replace (25 + 2 - 17 + (x - 10)) with x in Hc by lia. exact Hc.
Qed.

Lemma drawScore_screen (tb : Termbox) (sc : Z) (x y : Z) :
  (String.length (itoa sc) <= 16)%nat ->
  screenAt (drawScore tb sc) x y = screenAt (drawScore tb 0) x y.
Proof.
  intros Hlen.
  destruct (drawScore_parts tb sc) as [head [digits [tail [E1 [E0 [Ed Hcov]]]]]].
  rewrite E1, E0, !screenAt_app.
  destruct (screenAt tail x y) as [c|] eqn:T; [reflexivity|].
  assert (D : screenAt digits x y = None).
  { apply screenAt_None. intros c Hc Hx Hy. subst digits.
    apply in_map_iff in Hc. destruct Hc as [p [<- Hp]]. cbn [c_x c_y] in *.
    apply rangeFrom_offsets in Hp. unfold len in Hp.
    rewrite append_length in Hp. cbn [String.length] in Hp.
    rewrite wrap_near in Hx by lia.
    apply (Hcov x); [lia|]. rewrite Hy. exact T. }
  assert (D0 : screenAt (map (fun p => mkCell (wrap (fst p + 2)) (height + 3) (snd p)
                                          (ColorScore tb) (ColorBlue tb))
                             (rangeFrom 2 8 "0 ")) x y = None).
  { apply screenAt_None. intros c Hc Hx Hy.
    apply in_map_iff in Hc. destruct Hc as [p [<- Hp]]. cbn [c_x c_y] in *.
    apply rangeFrom_offsets in Hp. change (len "0 ") with 2 in Hp.
    rewrite wrap_near in Hx by lia.
    apply (Hcov x); [lia|]. rewrite Hy. exact T. }
  rewrite D, D0. reflexivity.
Qed.

(** X13.  The score line [drawScore] leaves on screen is the same
    whatever the score: the instructions text, painted second, starts at
    the column of the first digit and covers every digit the first loop
    painted, so the line never shows the score. *)
Theorem X13_score_line_hides_the_score
  (tb : Termbox) (raw : nat -> Z) (s : State) (x y : Z) :
  reachable raw s ->
  screenAt (drawScore tb (score s)) x y = screenAt (drawScore tb 0) x y.
Proof.
  intros Hr. apply drawScore_screen.
  pose proof (reachable_Inv raw s Hr) as HI.
  pose proof (reachable_Shape raw s Hr) as HS.
  pose proof (inv_score _ HI) as Hsc. pose proof (shape_length _ HS) as Hl.
  pose proof (inv_body _ HI) as Hb.
  assert (Hs : 0 <= score s <= 4980).
  { unfold cellCount, width, height in Hl. simpl in Hl.
    destruct (snake s); [congruence|]. simpl List.length in *. lia. }
  pose proof (itoa_short _ Hs). lia.
Qed.

(** With score 20 the cell of the first digit shows the first byte of the
    instructions, a space, as it does with score 0. *)
Lemma X13_score_line_hides_the_score_witness :
  reachable rawAhead fedTwice /\ score fedTwice = 20 /\
  option_map c_ch (screenAt (drawScore sampleTermbox (score fedTwice)) 10 23) = Some 32.
Proof.
  split; [exact fedTwice_reachable|]. split; [reflexivity|].
  rewrite (X13_score_line_hides_the_score sampleTermbox rawAhead fedTwice 10 23
             fedTwice_reachable).
  vm_compute. reflexivity.
Defined.

(** ** The input goroutine *)

(** X14.  Whatever events the terminal delivers, [readInput] sends nothing
    but the four direction names, and it stops for good when it closes
    [quitCh]: a quit signal is the last thing it produces. *)
Theorem X14_readInput_sends_directions (tb : Termbox) (evs : list TermEvent) :
  Forall (fun e => e = Quit \/ exists k, e = Key k /\ validDirection k)
         (readInput tb evs) /\
  forall before after, readInput tb evs = (before ++ Quit :: after)%list -> after = [].
Proof.
  induction evs as [|ev evs [IH1 IH2]]; cbn [readInput].
  - split; [constructor|]. intros [|e before] after H; discriminate H.
  - assert (Hcons : forall k, validDirection k ->
              Forall (fun e => e = Quit \/ exists k, e = Key k /\ validDirection k)
                     (Key k :: readInput tb evs) /\
              forall before after,
                Key k :: readInput tb evs = (before ++ Quit :: after)%list -> after = []).
    { intros k Hk. split.
      - constructor; [right; exists k; auto | exact IH1].
      - intros [|e before] after H; [discriminate H|].
        injection H as _ H. apply (IH2 _ _ H). }
    unfold validDirection in Hcons.
    repeat match goal with
           | |- context [if ?b then _ else _] => destruct b
           end; auto.
    split.
    + constructor; [left; reflexivity | constructor].
    + intros [|e [|e' before]] after H; try discriminate H.
      injection H as H. symmetry. exact H.
Qed.

(** X15.  Once [q] or Escape is pressed, nothing typed afterwards reaches
    the game: the input goroutine has returned.  Events that are not key
    presses are skipped. *)
Theorem X15_readInput_stops_at_quit
  (tb : Termbox) (evs1 evs2 : list TermEvent) (ev : TermEvent) :
  ~ In Quit (readInput tb evs1) ->
  (quitPress tb ev ->
   readInput tb (evs1 ++ ev :: evs2) = (readInput tb evs1 ++ [Quit])%list) /\
  (ev_Type ev <> EventKey tb ->
   readInput tb (evs1 ++ ev :: evs2) = (readInput tb evs1 ++ readInput tb evs2)%list).
Proof.
  induction evs1 as [|e evs1 IH]; intros Hq.
  - cbn [app readInput]. split.
    + intros [Ht [H1 [H2 [H3 [H4 H5]]]]].
      apply Z.eqb_eq in Ht. rewrite Ht.
      apply Z.eqb_neq in H1, H2, H3, H4. rewrite H1, H2, H3, H4.
      assert (B : (ev_Ch ev =? 113) || (ev_Key ev =? KeyEsc tb) = true).
      { apply orb_true_iff. rewrite !Z.eqb_eq. exact H5. }
      rewrite B. reflexivity.
    + intros Ht. apply Z.eqb_neq in Ht. rewrite Ht. reflexivity.
  - cbn [app readInput] in *.
    repeat match goal with
           | |- context [if ?b then _ else _] => destruct b
           end;
      try (destruct IH as [IH1 IH2];
           [ intros Hin; apply Hq; try (right; exact Hin); exact Hin
           | split; intros H; cbn [app]; [rewrite (IH1 H) | rewrite (IH2 H)]; reflexivity ]).
    exfalso. apply Hq. left. reflexivity.
Qed.

Lemma X15_readInput_stops_at_quit_witness :
  readInput sampleTermbox
    ([mkTermEvent 0 65517 0] ++ mkTermEvent 0 0 113 :: [mkTermEvent 0 65516 0]) =
  [Key "UP"; Quit].
Proof.
  apply (proj1 (X15_readInput_stops_at_quit sampleTermbox [mkTermEvent 0 65517 0]
                  [mkTermEvent 0 65516 0] (mkTermEvent 0 0 113)
                  ltac:(vm_compute; intros [H|[]]; discriminate H))).
  unfold quitPress. cbn. repeat split; try discriminate. left. reflexivity.
Defined.

(** ** The game-over box *)

Lemma get_Some_lt (s : string) :
  forall i d, String.get i s = Some d -> (i < String.length s)%nat.
Proof.
  induction s as [|a s IH]; intros i d; cbn [String.get String.length].
  - discriminate.
  - destruct i as [|i]; [lia|]. intros H. apply IH in H. lia.
Qed.

Lemma boxShowsScore_all (tb : Termbox) (k : nat) :
  (k < 499)%nat -> boxShowsScore tb (10 * Z.of_nat k) = true.
Proof.
  intros Hk.
  assert (H : forallb (fun n => boxShowsScore tb (10 * Z.of_nat n)) (seq 0 499) = true)
    by (vm_compute; reflexivity).
  rewrite forallb_forall in H. apply H. apply in_seq. lia.
Qed.

(** X16.  The frame painted when the game is over does show the final
    score: in row 9, from column 19 on, it holds the bytes of the score
    written with [%3d], digit by digit; nothing painted later covers
    them. *)
Theorem X16_game_over_box_shows_the_score
  (tb : Termbox) (raw : nat -> Z) (s : State) (i : nat) (d : ascii) :
  reachable raw s -> gameOver s = true ->
  String.get i (pad3 (itoa (score s))) = Some d ->
  option_map c_ch (screenAt (paint tb (snapshot s)) (19 + Z.of_nat i) 9) =
  Some (byteOf d).
Proof.
  intros Hr Hg Hd.
  pose proof (reachable_Inv raw s Hr) as HI.
  pose proof (reachable_Shape raw s Hr) as HS.
  assert (Hs : 0 <= score s <= 4980).
  { pose proof (inv_score _ HI) as Hsc. pose proof (shape_length _ HS) as Hl.
    pose proof (inv_body _ HI) as Hb.
    unfold cellCount, width, height in Hl. simpl in Hl.
    destruct (snake s); [congruence|]. simpl List.length in *. lia. }
  assert (Hbox : boxShowsScore tb (score s) = true).
  { pose proof (inv_score _ HI) as Hsc. pose proof (shape_length _ HS) as Hl.
    pose proof (inv_body _ HI) as Hb.
    unfold cellCount, width, height in Hl. simpl in Hl.
    replace (score s) with (10 * Z.of_nat (List.length (snake s) - 1)).
    - apply boxShowsScore_all. lia.
    - rewrite Hsc. destruct (snake s); [congruence|]. simpl List.length. lia. }
  unfold boxShowsScore in Hbox. cbv zeta in Hbox. rewrite forallb_forall in Hbox.
  assert (Hi : (i < 8)%nat).
  { apply get_Some_lt in Hd. unfold pad3 in Hd. rewrite append_length in Hd.
    pose proof (itoa_short _ Hs) as Hlen.
    assert (Hsp : forall n, String.length (spaces n) = n)
      by (induction n as [|n IHn]; cbn [spaces String.length]; congruence).
    rewrite Hsp in Hd. lia. }
  specialize (Hbox i ltac:(apply in_seq; lia)). rewrite Hd in Hbox.
  unfold paint, snapshot. cbn [f_snake f_food f_score f_gameOver].
  rewrite Hg, !screenAt_app.
  destruct (screenAt (drawGameOver tb (score s)) (19 + Z.of_nat i) 9) as [c|];
    [|discriminate Hbox].
  apply Z.eqb_eq in Hbox. cbn [option_map]. rewrite Hbox. reflexivity.
Qed.

(** The game that ran into the right wall with score 0: the last of the
    three bytes of the score, the digit 0, is at column 21. *)
Lemma X16_game_over_box_shows_the_score_witness :
  reachable rawZero ranIntoWall /\ gameOver ranIntoWall = true /\
  option_map c_ch (screenAt (paint sampleTermbox (snapshot ranIntoWall)) 21 9) = Some 48.
Proof.
  split; [exact ranIntoWall_reachable|].
  assert (Hg : gameOver ranIntoWall = true) by (vm_compute; reflexivity).
  split; [exact Hg|].
  apply (X16_game_over_box_shows_the_score sampleTermbox rawZero ranIntoWall 2 "0"%char
           ranIntoWall_reachable Hg).
  vm_compute. reflexivity.
Defined.

(** * The item service *)

Import ItemStore.

Lemma lookup_insert_cases (m : gmap.gmap Z Item) (k j : Z) (v : Item) :
  base.lookup j (base.insert k v m) = if Z.eq_dec k j then Some v else base.lookup j m.
Proof.
  destruct (Z.eq_dec k j) as [->|Hne].
  - apply fin_maps.lookup_insert_eq.
  - apply fin_maps.lookup_insert_ne. exact Hne.
Qed.

Lemma lookup_delete_cases (m : gmap.gmap Z Item) (k j : Z) :
  base.lookup j (base.delete k m) = if Z.eq_dec k j then None else base.lookup j m.
Proof.
  destruct (Z.eq_dec k j) as [->|Hne].
  - apply fin_maps.lookup_delete_eq.
  - apply fin_maps.lookup_delete_ne. exact Hne.
Qed.

Lemma initial_consistent : consistent initial.
Proof.
  split; [unfold initial, int_max; cbn [idSeq]; lia|].
  intros k item H. unfold initial in H. cbn [items] in H.
  rewrite fin_maps.lookup_empty in H. discriminate H.
Qed.

(** One request keeps the store consistent and uses up at most one ID. *)
Lemma serve_consistent (rt : Route) (r : Request) (st : Store) :
  consistent st -> idSeq st < int_max ->
  consistent (fst (serve rt r st)) /\
  idSeq st <= idSeq (fst (serve rt r st)) <= idSeq st + 1.
Proof.
  intros [Hseq Hitems] Hlt.
  assert (Hsame : consistent st /\ idSeq st <= idSeq st <= idSeq st + 1)
    by (split; [split; assumption | lia]).
  assert (Hw : wrap (idSeq st + 1) = idSeq st + 1).
  { apply wrap_id. unfold in_range, int_min, int_max in *. lia. }
  destruct rt; unfold serve, handleItems, handleItem.
  - destruct (method r =? "GET")%string; [exact Hsame|].
    destruct (method r =? "POST")%string; [|exact Hsame].
    unfold createItem. destruct (decoded r) as [body|]; [|exact Hsame].
    unfold consistent. cbn [fst idSeq items]. rewrite Hw. split; [|lia].
    split; [lia|]. intros k item. rewrite lookup_insert_cases.
    destruct (Z.eq_dec (idSeq st) k) as [<-|Hne].
    + intros E. injection E as <-. cbn [ID]. lia.
    + intros E. destruct (Hitems k item E). lia.
  - destruct (method r =? "GET")%string.
    { unfold getItem. destruct (pathID r) as [id|]; [|exact Hsame].
      destruct (base.lookup id (items st)); exact Hsame. }
    destruct (method r =? "PUT")%string.
    { unfold updateItem. destruct (pathID r) as [id|]; [|exact Hsame].
      destruct (decoded r) as [body|]; [|exact Hsame].
      destruct (base.lookup id (items st)) as [old|] eqn:L; [|exact Hsame].
      unfold consistent. cbn [fst idSeq items]. split; [|lia]. split; [lia|].
      intros k item. rewrite lookup_insert_cases.
      destruct (Z.eq_dec id k) as [<-|Hne].
      - intros E. injection E as <-. cbn [ID]. destruct (Hitems id old L). lia.
      - intros E. apply (Hitems k item E). }
    destruct (method r =? "DELETE")%string; [|exact Hsame].
    unfold deleteItem. destruct (pathID r) as [id|]; [|exact Hsame].
    destruct (base.lookup id (items st)) as [old|] eqn:L; [|exact Hsame].
    unfold consistent. cbn [fst idSeq items]. split; [|lia]. split; [lia|].
    intros k item. rewrite lookup_delete_cases.
    destruct (Z.eq_dec id k); [discriminate|]. apply Hitems.
Qed.

Lemma serveAll_consistent (reqs : list (Route * Request)) :
  forall st, consistent st ->
  idSeq st + Z.of_nat (List.length reqs) <= int_max ->
  consistent (serveAll reqs st) /\
  idSeq st <= idSeq (serveAll reqs st) <= idSeq st + Z.of_nat (List.length reqs).
Proof.
  induction reqs as [|[rt r] reqs IH]; intros st Hc Hn.
  - cbn [serveAll List.length]. split; [exact Hc | lia].
  - cbn [serveAll]. cbn [List.length] in *.
    destruct (serve_consistent rt r st Hc ltac:(lia)) as [Hc' Hs].
    destruct (IH (fst (serve rt r st)) Hc' ltac:(lia)) as [Hc'' Hs''].
    split; [exact Hc''|]. lia.
Qed.

(** X17.  After any sequence of requests (fewer than 2^63 - 1 of them)
    every stored item carries the ID it is stored under, every ID in use
    lies between 1 and [idSeq], and [idSeq] has grown by at most one per
    request. *)
Theorem X17_store_stays_consistent (reqs : list (Route * Request)) :
  Z.of_nat (List.length reqs) < int_max ->
  (forall k item, base.lookup k (items (serveAll reqs initial)) = Some item ->
     ID item = k /\ 1 <= k < idSeq (serveAll reqs initial)) /\
  1 <= idSeq (serveAll reqs initial) <= 1 + Z.of_nat (List.length reqs).
Proof.
  intros Hn.
  destruct (serveAll_consistent reqs initial initial_consistent) as [[_ Hit] Hs].
  - cbn [initial idSeq]. lia.
  - cbn [initial idSeq] in Hs. split; [exact Hit | lia].
Qed.

Lemma X17_store_stays_consistent_witness :
  1 <= idSeq (serveAll [(Collection, mkRequest "POST" None (Some (mkItem 7 "tea" 3)));
                        (Member, mkRequest "DELETE" (Some 1) None);
                        (Collection, mkRequest "POST" None (Some (mkItem 0 "jam" 5)))]
                       initial) <= 1 + 3.
Proof.
  apply (X17_store_stays_consistent
           [(Collection, mkRequest "POST" None (Some (mkItem 7 "tea" 3)));
            (Member, mkRequest "DELETE" (Some 1) None);
            (Collection, mkRequest "POST" None (Some (mkItem 0 "jam" 5)))]).
  unfold int_max. cbn [List.length]. lia.
Defined.

(** X18.  A created item can be read back: [createItem] answers 201 with
    the item under the ID [idSeq] held (the ID sent in the body is
    ignored), and a GET of that ID on the store it leaves answers 200 with
    the same item. *)
Theorem X18_created_item_reads_back (r r' : Request) (st : Store) (sent : Item) :
  decoded r = Some sent -> pathID r' = Some (idSeq st) ->
  snd (createItem r st) =
    jsonResponse 201 (JsonItem (mkItem (idSeq st) (Name sent) (Price sent))) /\
  getItem r' (fst (createItem r st)) =
    (fst (createItem r st),
     jsonResponse 200 (JsonItem (mkItem (idSeq st) (Name sent) (Price sent)))).
Proof.
  intros Hd Hp. unfold createItem, getItem. rewrite Hd, Hp. cbn [fst snd items].
  rewrite fin_maps.lookup_insert_eq. split; reflexivity.
Qed.

Lemma X18_created_item_reads_back_witness :
  snd (getItem (mkRequest "GET" (Some 1) None)
         (fst (createItem (mkRequest "POST" None (Some (mkItem 7 "tea" 3))) initial))) =
  jsonResponse 200 (JsonItem (mkItem 1 "tea" 3)).
Proof.
  rewrite (proj2 (X18_created_item_reads_back
                    (mkRequest "POST" None (Some (mkItem 7 "tea" 3)))
                    (mkRequest "GET" (Some 1) None) initial (mkItem 7 "tea" 3)
                    eq_refl eq_refl)).
  reflexivity.
Defined.

(** X19.  In a consistent store with IDs to spare, [createItem] never
    overwrites: the ID it hands out was free, every other item stays as it
    was, the number of items grows by one and [idSeq] by one. *)
Theorem X19_createItem_uses_a_fresh_id (r : Request) (st : Store) (sent : Item) :
  consistent st -> idSeq st < int_max -> decoded r = Some sent ->
  base.lookup (idSeq st) (items st) = None /\
  (forall k, k <> idSeq st ->
     base.lookup k (items (fst (createItem r st))) = base.lookup k (items st)) /\
  base.size (items (fst (createItem r st))) = S (base.size (items st)) /\
  idSeq (fst (createItem r st)) = idSeq st + 1.
Proof.
  intros [Hseq Hitems] Hlt Hd.
  assert (Hfree : base.lookup (idSeq st) (items st) = None).
  { destruct (base.lookup (idSeq st) (items st)) as [item|] eqn:L; [|reflexivity].
    destruct (Hitems _ _ L). lia. }
  unfold createItem. rewrite Hd. cbn [fst items idSeq].
  split; [exact Hfree|]. split; [|split].
  - intros k Hk. apply fin_maps.lookup_insert_ne. congruence.
  - apply fin_maps.map_size_insert_None. exact Hfree.
  - apply wrap_id. unfold in_range, int_min, int_max in *. lia.
Qed.

Lemma X19_createItem_uses_a_fresh_id_witness :
  idSeq (fst (createItem (mkRequest "POST" None (Some (mkItem 7 "tea" 3))) initial)) = 1 + 1.
Proof.
  apply (X19_createItem_uses_a_fresh_id
           (mkRequest "POST" None (Some (mkItem 7 "tea" 3))) initial (mkItem 7 "tea" 3)
           initial_consistent).
  - unfold int_max. cbn [initial idSeq]. lia.
  - reflexivity.
Defined.

(** X20.  [updateItem] replaces an item that exists and creates nothing:
    on an ID in use it stores the name and price sent under that ID (the
    ID sent in the body is ignored), leaves every other item and [idSeq]
    alone and answers 200 with the stored item; on an ID not in use it
    answers 404 and leaves the store as it was. *)
Theorem X20_updateItem_replaces_or_refuses
  (r : Request) (st : Store) (id : Z) (sent : Item) :
  pathID r = Some id -> decoded r = Some sent ->
  (forall old, base.lookup id (items st) = Some old ->
     snd (updateItem r st) =
       jsonResponse 200 (JsonItem (mkItem id (Name sent) (Price sent))) /\
     base.lookup id (items (fst (updateItem r st))) =
       Some (mkItem id (Name sent) (Price sent)) /\
     (forall k, k <> id ->
        base.lookup k (items (fst (updateItem r st))) = base.lookup k (items st)) /\
     idSeq (fst (updateItem r st)) = idSeq st) /\
  (base.lookup id (items st) = None ->
     updateItem r st = (st, httpError "Item not found" 404)).
Proof.
  intros Hp Hd. unfold updateItem. rewrite Hp, Hd. split.
  - intros old L. rewrite L. cbn [fst snd items idSeq].
    split; [reflexivity|]. split; [apply fin_maps.lookup_insert_eq|].
    split; [|reflexivity]. intros k Hk. apply fin_maps.lookup_insert_ne. congruence.
  - intros L. rewrite L. reflexivity.
Qed.

Lemma X20_updateItem_replaces_or_refuses_witness :
  updateItem (mkRequest "PUT" (Some 5) (Some (mkItem 0 "jam" 5))) initial =
  (initial, httpError "Item not found" 404).
Proof.
  apply (proj2 (X20_updateItem_replaces_or_refuses
                  (mkRequest "PUT" (Some 5) (Some (mkItem 0 "jam" 5))) initial 5
                  (mkItem 0 "jam" 5) eq_refl eq_refl)).
  reflexivity.
Defined.

(** X21.  [deleteItem] on an ID in use answers 204, after which a GET of
    that ID answers 404 while every other item is still there; and in a
    consistent store the ID is never handed out again: the next item
    created gets a different ID. *)
Theorem X21_deleted_id_is_gone_for_good
  (r r' rc : Request) (st : Store) (id : Z) (old sent : Item) :
  consistent st ->
  pathID r = Some id -> base.lookup id (items st) = Some old ->
  pathID r' = Some id -> decoded rc = Some sent ->
  snd (deleteItem r st) = mkResponse 204 "" NoBody /\
  snd (getItem r' (fst (deleteItem r st))) = httpError "Item not found" 404 /\
  (forall k, k <> id ->
     base.lookup k (items (fst (deleteItem r st))) = base.lookup k (items st)) /\
  exists created,
    snd (createItem rc (fst (deleteItem r st))) = jsonResponse 201 (JsonItem created) /\
    ID created <> id.
Proof.
  intros [Hseq Hitems] Hp L Hp' Hd.
  unfold deleteItem, getItem, createItem. rewrite Hp, L, Hp', Hd.
  cbn [fst snd items idSeq]. rewrite fin_maps.lookup_delete_eq.
  split; [reflexivity|]. split; [reflexivity|]. split.
  - intros k Hk. apply fin_maps.lookup_delete_ne. congruence.
  - eexists. split; [reflexivity|]. cbn [ID]. destruct (Hitems id old L). lia.
Qed.

Lemma X21_deleted_id_is_gone_for_good_witness :
  snd (getItem (mkRequest "GET" (Some 1) None)
         (fst (deleteItem (mkRequest "DELETE" (Some 1) None)
                 (fst (createItem (mkRequest "POST" None (Some (mkItem 7 "tea" 3)))
                         initial))))) =
  httpError "Item not found" 404.
Proof.
  pose (st := fst (createItem (mkRequest "POST" None (Some (mkItem 7 "tea" 3))) initial)).
  assert (Hc : consistent st).
  { apply (serve_consistent Collection
             (mkRequest "POST" None (Some (mkItem 7 "tea" 3))) initial initial_consistent).
    unfold int_max. cbn [initial idSeq]. lia. }
  apply (X21_deleted_id_is_gone_for_good
           (mkRequest "DELETE" (Some 1) None) (mkRequest "GET" (Some 1) None)
           (mkRequest "POST" None (Some (mkItem 0 "jam" 5))) st 1
           (mkItem 1 "tea" 3) (mkItem 0 "jam" 5) Hc eq_refl).
  - vm_compute. reflexivity.
  - reflexivity.
  - reflexivity.
Defined.

(** X22.  A request that is refused changes nothing: whenever the status
    is 400, 404 or 405 the store is as before.  GET never changes the
    store.  "/items" answers 405 to every method but GET and POST, and
    "/items/" to every method but GET, PUT and DELETE. *)
Theorem X22_refused_requests_change_nothing (r : Request) (st : Store) :
  (forall rt, 400 <= status (snd (serve rt r st)) -> fst (serve rt r st) = st) /\
  (forall rt, method r = "GET" -> fst (serve rt r st) = st) /\
  (method r <> "GET" -> method r <> "POST" ->
   serve Collection r st = (st, httpError "Method not allowed" 405)) /\
  (method r <> "GET" -> method r <> "PUT" -> method r <> "DELETE" ->
   serve Member r st = (st, httpError "Method not allowed" 405)).
Proof.
  split; [|split; [|split]].
  - intros rt.
    destruct rt; unfold serve, handleItems, handleItem, getItems, createItem,
      getItem, updateItem, deleteItem;
      repeat match goal with
             | |- context [if ?b then _ else _] => destruct b
             | |- context [match ?o with Some _ => _ | None => _ end] => destruct o
             end; cbn [fst snd status jsonResponse httpError]; intros H;
      try reflexivity; lia.
  - intros rt Hm. destruct rt; unfold serve, handleItems, handleItem; rewrite Hm;
      cbn [String.eqb Ascii.eqb Bool.eqb]; unfold getItems, getItem;
      repeat match goal with
             | |- context [match ?o with Some _ => _ | None => _ end] => destruct o
             end; reflexivity.
  - intros H1 H2. apply String.eqb_neq in H1, H2.
    unfold serve, handleItems. rewrite H1, H2. reflexivity.
  - intros H1 H2 H3. apply String.eqb_neq in H1, H2, H3.
    unfold serve, handleItem. rewrite H1, H2, H3. reflexivity.
Qed.

Lemma X22_refused_requests_change_nothing_witness :
  serve Collection (mkRequest "DELETE" None None) initial =
  (initial, httpError "Method not allowed" 405).
Proof.
  apply (proj1 (proj2 (proj2 (X22_refused_requests_change_nothing
                                (mkRequest "DELETE" None None) initial))));
    cbn [method]; discriminate.
Defined.

(** X23.  [getItems] answers 200 with the stored items and nothing else:
    an item is in the list exactly when it is stored under some ID, the
    list is as long as the map is large, and the store is left as it was. *)
Theorem X23_getItems_lists_the_store (st : Store) :
  exists itemList,
    getItems st = (st, jsonResponse 200 (JsonList itemList)) /\
    (forall item, In item itemList <->
                  exists k, base.lookup k (items st) = Some item) /\
    List.length itemList = base.size (items st).
Proof.
  eexists. split; [reflexivity|]. split.
  - intros item. rewrite in_map_iff. split.
    + intros [[k v] [<- H]]. exists k. apply base.list_elem_of_In in H.
      apply fin_maps.elem_of_map_to_list in H. exact H.
    + intros [k H]. exists (k, item). split; [reflexivity|].
      apply base.list_elem_of_In. apply fin_maps.elem_of_map_to_list. exact H.
  - rewrite length_map. apply fin_maps.length_map_to_list.
Qed.
